(** * Audio pipeline of the quiz game (src/App.tsx and its later revision)

    A shallow embedding of the functions of [App.tsx] that make up the
    speech pipeline ([decodeBase64], [decodeAudioData], [checkApiKey],
    [initAudio], [stopCurrentAudio], [playTTS]) and of [shuffleArray] from
    the later revision of the same file, followed by the properties
    established about them.

    Conventions.
    - A JavaScript string is the list of its UTF-16 code units, each a [Z].
      String literals of the source are written as Rocq strings and turned
      into code units with [units].
    - A [Uint8Array] is the list of its elements (each in [0, 255]).  Every
      [Uint8Array] of this program is freshly allocated, so its
      [byteOffset] is 0 and its [buffer] holds exactly its elements.
    - A call that may throw returns an [outcome]; [try ... catch] is
      [try_catch]. *)

From Stdlib Require Import ZArith QArith Qround Lia.
From stdpp Require Import base list gmap strings.

Local Open Scope Z_scope.

(** ** Exceptions and outcomes *)

(** The exceptions that the platform calls used by the program can raise,
    and the one the program raises itself ([new Error("NO_KEY")]). *)
Inductive exn : Type :=
  | InvalidCharacterError   (* atob on a string it cannot decode *)
  | NotSupportedError       (* createBuffer / AudioContext constructor *)
  | InvalidStateError       (* stop() on a source never started, resume() *)
  | ReferenceError          (* [process] is not defined *)
  | TypeError               (* calling or reading through undefined *)
  | RemoteError             (* generateContent rejected *)
  | NO_KEY.                 (* throw new Error("NO_KEY") *)

Inductive outcome (A : Type) : Type :=
  | Returned (a : A)
  | Thrown (e : exn).
Arguments Returned {A} a.
Arguments Thrown {A} e.

Definition bind_outcome {A B} (m : outcome A) (k : A -> outcome B) : outcome B :=
  match m with
  | Returned a => k a
  | Thrown e => Thrown e
  end.

Definition try_catch {A} (body : outcome A) (handler : exn -> outcome A) : outcome A :=
  match body with
  | Returned a => Returned a
  | Thrown e => handler e
  end.

#[global] Instance outcome_ret : MRet outcome := @Returned.
#[global] Instance outcome_bind : MBind outcome := fun A B k m => bind_outcome m k.

(** Code units of a source literal. *)
Definition units (s : string) : list Z :=
  map (fun a => Z.of_N (Ascii.N_of_ascii a)) (String.list_ascii_of_string s).

(** ** The credential check *)

Module Credential.

(** What [process.env.API_KEY] can evaluate to: [process] may be
    undefined (the read throws), the variable may be absent
    ([undefined]), or it is a string. *)
Inductive environment : Type :=
  | NoProcess
  | ProcessEnv (API_KEY : option string).

Definition read_API_KEY (env : environment) : outcome (option string) :=
  match env with
  | NoProcess => Thrown ReferenceError
  | ProcessEnv k => Returned k
  end.

(** [!key] on a value of type [string | undefined]. *)
Definition falsy (key : option string) : bool :=
  match key with
  | None => true
  | Some s => bool_decide (s = "")
  end.

(** [key === lit]; false when [key] is undefined. *)
Definition strict_eq (key : option string) (lit : string) : bool :=
  match key with
  | None => false
  | Some s => bool_decide (s = lit)
  end.

(** [key.length], read only after [!key] was false. *)
Definition key_length (key : option string) : Z :=
  match key with
  | None => 0
  | Some s => Z.of_nat (String.length s)
  end.

(** [checkApiKey], lines 73-83 of App.tsx. *)
Definition checkApiKey (env : environment) : outcome bool :=
  try_catch
    (key ← read_API_KEY env;
     if falsy key || strict_eq key "undefined" || strict_eq key ""
        || (key_length key <? 10)
     then Returned false
     else Returned true)
    (fun _ => Returned false).

(** The credential string the check looks at, if there is one. *)
Definition credential (env : environment) : option string :=
  match env with
  | NoProcess => None
  | ProcessEnv k => k
  end.

(** The spec's wording of an invalid credential: absent, the literal
    "undefined", empty, or shorter than 10 characters. *)
Definition spec_invalid (c : option string) : Prop :=
  c = None \/ c = Some "undefined"%string \/ c = Some ""%string
  \/ exists s, c = Some s /\ (String.length s < 10)%nat.

End Credential.

(** ** Base64 payload to bytes *)

Module Base64.

(** *** The platform's [atob]

    [atob] is the forgiving-base64 decoder of the HTML standard: it
    removes ASCII whitespace; when the remaining length is a multiple of
    4 it removes one or two trailing [=]; it fails when the length then
    leaves remainder 1 modulo 4 or when a code unit outside the base64
    alphabet remains; otherwise it reads 6 bits per code unit and emits
    one byte per 8 bits, discarding the 2 or 4 bits left over.  The
    result is a string whose code units are the decoded bytes. *)

(** TAB, LF, FF, CR, SPACE. *)
Definition is_ascii_whitespace (c : Z) : bool :=
  (c =? 9) || (c =? 10) || (c =? 12) || (c =? 13) || (c =? 32).

(** Value of a code unit of the alphabet [A-Z a-z 0-9 + /]. *)
Definition sextet (c : Z) : option Z :=
  if (65 <=? c) && (c <=? 90) then Some (c - 65)
  else if (97 <=? c) && (c <=? 122) then Some (c - 71)
  else if (48 <=? c) && (c <=? 57) then Some (c + 4)
  else if c =? 43 then Some 62
  else if c =? 47 then Some 63
  else None.

Definition ends_with_pad (d : list Z) : bool :=
  match last d with
  | Some c => c =? 61
  | None => false
  end.

Definition drop_last (d : list Z) : list Z := take (length d - 1) d.

Definition strip_padding (d : list Z) : list Z :=
  if Z.of_nat (length d) mod 4 =? 0 then
    if ends_with_pad d then
      if ends_with_pad (drop_last d) then drop_last (drop_last d)
      else drop_last d
    else d
  else d.

Fixpoint sextets (d : list Z) : option (list Z) :=
  match d with
  | [] => Some []
  | c :: d' =>
      match sextet c, sextets d' with
      | Some v, Some vs => Some (v :: vs)
      | _, _ => None
      end
  end.

(** 24 bits give three bytes; a final group of 18 bits gives two and a
    final group of 12 bits gives one, the low bits being discarded. *)
Fixpoint bytes_of_sextets (vs : list Z) : list Z :=
  match vs with
  | a :: b :: c :: d :: rest =>
      let n := ((a * 64 + b) * 64 + c) * 64 + d in
      n / 65536 :: (n / 256) mod 256 :: n mod 256 :: bytes_of_sextets rest
  | [a; b; c] =>
      let n := ((a * 64 + b) * 64 + c) / 4 in
      [n / 256; n mod 256]
  | [a; b] => [(a * 64 + b) / 16]
  | _ => []
  end.

Definition atob (base64 : list Z) : outcome (list Z) :=
  let data := strip_padding (filter (fun c => is_ascii_whitespace c = false) base64) in
  if Z.of_nat (length data) mod 4 =? 1 then Thrown InvalidCharacterError
  else match sextets data with
       | None => Thrown InvalidCharacterError
       | Some vs => Returned (bytes_of_sextets vs)
       end.

(** *** Typed-array primitives used by [decodeBase64] *)

(** [new Uint8Array(n)]: [n] zero bytes; [new Uint8Array()] is empty. *)
Definition Uint8Array_new (n : nat) : list Z := replicate n 0.

(** [bytes[i] = v]: the value is stored modulo 256; an index outside
    the array is ignored. *)
Definition Uint8Array_set (bytes : list Z) (i : nat) (v : Z) : list Z :=
  <[i := v mod 256]> bytes.

(** [s.charCodeAt(i)] for [i] inside the string (NaN, stored as 0,
    outside). *)
Definition charCodeAt (s : list Z) (i : nat) : Z := default 0 (s !! i).

(** *** [decodeBase64], lines 8-20 of App.tsx *)

(** The [for] loop: [bytes[i] = binaryString.charCodeAt(i)] for
    [i = 0 .. binaryString.length - 1]. *)
Definition copy_loop (binaryString : list Z) (bytes : list Z) : list Z :=
  foldl (fun bytes i => Uint8Array_set bytes i (charCodeAt binaryString i))
        bytes (seq 0 (length binaryString)).

Definition decodeBase64 (base64 : list Z) : outcome (list Z) :=
  try_catch
    (binaryString ← atob base64;
     let bytes := Uint8Array_new (length binaryString) in
     Returned (copy_loop binaryString bytes))
    (fun _ => Returned (Uint8Array_new 0)).

(** *** The spec's notions *)

(** The standard base64 encoding (RFC 4648, with padding) of a byte
    sequence: what the spec calls a valid base64 string encoding these
    bytes. *)
Definition alphabet_char (v : Z) : Z :=
  if v <? 26 then v + 65
  else if v <? 52 then v + 71
  else if v <? 62 then v - 4
  else if v =? 62 then 43
  else 47.

Fixpoint rfc4648_encode (bs : list Z) : list Z :=
  match bs with
  | a :: b :: c :: rest =>
      alphabet_char (a / 4) :: alphabet_char ((a mod 4) * 16 + b / 16)
      :: alphabet_char ((b mod 16) * 4 + c / 64) :: alphabet_char (c mod 64)
      :: rfc4648_encode rest
  | [a; b] =>
      [alphabet_char (a / 4); alphabet_char ((a mod 4) * 16 + b / 16);
       alphabet_char ((b mod 16) * 4); 61]
  | [a] => [alphabet_char (a / 4); alphabet_char ((a mod 4) * 16); 61; 61]
  | [] => []
  end.

Definition is_byte (b : Z) : Prop := 0 <= b < 256.
Definition is_sextet (v : Z) : Prop := 0 <= v < 64.

(** The spec's reading of a well-formed input: only alphabet characters
    and standard padding, that is, a length that is a multiple of 4 with
    [=] only as the last one or two characters. *)
Definition spec_well_formed (s : list Z) : bool :=
  (Z.of_nat (length s) mod 4 =? 0)
  && forallb (fun c => bool_decide (is_Some (sextet c))) (strip_padding s).

(** The padding that follows [n] sextets of a standard encoding. *)
Definition padding_after (n : nat) (pad : list Z) : Prop :=
  (pad = [] /\ Z.of_nat n mod 4 = 0) \/ (pad = [61] /\ Z.of_nat n mod 4 = 3)
  \/ (pad = [61; 61] /\ Z.of_nat n mod 4 = 2).

(** The inputs [atob] rejects, spelled out. *)
Definition atob_rejects (s : list Z) : bool :=
  let data := strip_padding (filter (fun c => is_ascii_whitespace c = false) s) in
  (Z.of_nat (length data) mod 4 =? 1)
  || negb (forallb (fun c => bool_decide (is_Some (sextet c))) data).

End Base64.

(** ** Raw PCM to an audio buffer *)

Module PCM.

(** An element of a [Float32Array]: a finite number or NaN.  Every
    finite value stored by this program is an integer of at most 16 bits
    divided by 2^15, which a 32-bit float holds exactly, so rationals
    represent the stored values without rounding. *)
Inductive float : Type :=
  | Num (q : Q)
  | NaN.

(** The signed 16-bit integer whose little-endian bytes are [lo], [hi].
    [Int16Array] reads in the byte order of the platform, which is
    little-endian on the platforms browsers run on. *)
Definition int16_le (lo hi : Z) : Z :=
  let u := lo + 256 * hi in
  if u <? 32768 then u else u - 65536.

(** [new Int16Array(buffer, 0, len)]: the first [len] 16-bit elements.
    The constructor truncates a fractional [len] toward zero, so the
    caller passes [length data / 2] rounded down. *)
Fixpoint Int16Array_view (bytes : list Z) (len : nat) {struct len} : list Z :=
  match len, bytes with
  | S len', lo :: hi :: rest => int16_le lo hi :: Int16Array_view rest len'
  | _, _ => []
  end.

Record AudioBuffer : Type := mkAudioBuffer {
  numberOfChannels : nat;
  frames : nat;               (* AudioBuffer.length *)
  sampleRate : Z;
  channelData : list (list float)
}.

(** [ctx.createBuffer(numberOfChannels, length, sampleRate)] of the Web
    Audio API: the [length] argument, an [unsigned long], is the JS
    number truncated to an integer (array lengths stay far below 2^32,
    where the conversion would wrap); the call throws NotSupportedError
    when an argument is zero or outside its nominal range (at least one
    frame, 1 to 32 channels, 8000 to 96000 Hz: the ranges every
    implementation supports); otherwise the buffer is silent. *)
Definition createBuffer (channels : nat) (len : Q) (rate : Z) : outcome AudioBuffer :=
  let n := Z.to_nat (Qfloor len) in
  if bool_decide (channels = 0%nat) || bool_decide (32 < channels)%nat
     || bool_decide (n = 0%nat) || (rate <? 8000) || (96000 <? rate)
  then Thrown NotSupportedError
  else Returned (mkAudioBuffer channels n rate
                   (replicate channels (replicate n (Num 0)))).

(** [dataInt16[k] / 32768.0]; reading past the end gives [undefined],
    and [undefined / 32768.0] is NaN. *)
Definition scaled (dataInt16 : list Z) (k : nat) : float :=
  match dataInt16 !! k with
  | Some z => Num (Qmake z 32768)
  | None => NaN
  end.

(** [buffer.getChannelData(channel)[i] = v]: the view aliases the
    buffer, and a write outside the view is ignored. *)
Definition set_sample (buffer : AudioBuffer) (channel i : nat) (v : float) : AudioBuffer :=
  mkAudioBuffer (numberOfChannels buffer) (frames buffer) (sampleRate buffer)
    (alter (fun cd => <[i := v]> cd) channel (channelData buffer)).

(** Number of iterations of [for (i = 0; i < frameCount; i++)]. *)
Definition iterations (frameCount : Q) : nat := Z.to_nat (Qceiling frameCount).

(** [decodeAudioData], lines 22-39 of App.tsx.  [ctx] only provides
    [createBuffer], which does not depend on the state of the context. *)
Definition decodeAudioData (data : list Z) (sampleRate : Z) (numChannels : nat)
  : outcome AudioBuffer :=
  let dataInt16 := Int16Array_view data (length data / 2) in
  let frameCount : Q := (inject_Z (Z.of_nat (length dataInt16))
                         / inject_Z (Z.of_nat numChannels))%Q in
  buffer ← createBuffer numChannels frameCount sampleRate;
  Returned
    (foldl (fun buffer channel =>
              foldl (fun buffer i =>
                       set_sample buffer channel i
                         (scaled dataInt16 (i * numChannels + channel)))
                    buffer (seq 0 (iterations frameCount)))
           buffer (seq 0 numChannels)).

Definition is_int16 (z : Z) : Prop := -32768 <= z <= 32767.

Definition in_unit_range (v : float) : Prop :=
  match v with
  | Num q => (-1 <= q /\ q <= 1)%Q
  | NaN => False
  end.

End PCM.

(** ** Option shuffling (later revision of App.tsx) *)

Module Shuffle.

(** References to JavaScript arrays. *)
Abbreviation loc := nat (only parsing).

Section Shuffle.
Context {T : Type}.

(** Arrays live in a store [gmap loc (list T)]: [shuffleArray] receives
    a reference, and the caller keeps its own reference to the same
    array. *)

(** [Math.floor(Math.random() * (i + 1))], for the value [r] returned
    by [Math.random()]. *)
Definition random_index (r : Q) (i : nat) : nat :=
  Z.to_nat (Qfloor (r * inject_Z (Z.of_nat (i + 1)))).

(** [[a[i], a[j]] = [a[j], a[i]]]: both reads happen before both
    writes.  With an index outside the array JavaScript would read
    [undefined] and grow the array; the model stops there ([None]). *)
Definition swap (a : list T) (i j : nat) : option (list T) :=
  x ← a !! j;
  y ← a !! i;
  Some (<[j := y]> (<[i := x]> a)).

(** The loop [for (let i = shuffled.length - 1; i > 0; i--)], entered
    with index [i] after [calls] calls of [Math.random]; [random k] is
    the value returned by the call number [k]. *)
Fixpoint fisher_yates (random : nat -> Q) (calls i : nat) (shuffled : list T)
  : option (list T) :=
  match i with
  | O => Some shuffled
  | S i' =>
      let j := random_index (random calls) i in
      shuffled' ← swap shuffled i j;
      fisher_yates random (S calls) i' shuffled'
  end.

(** [shuffleArray], lines 41-48 of the later revision: [[...array]]
    allocates a new array holding the elements of [array]; the loop
    then permutes the new array in place, and its reference is
    returned. *)
Definition shuffleArray (random : nat -> Q) (h : gmap loc (list T)) (array : loc)
  : option (gmap loc (list T) * loc) :=
  elems ← h !! array;
  let shuffled : loc := fresh (dom h) in
  let h1 := <[shuffled := elems]> h in
  result ← fisher_yates random 0 (length elems - 1) elems;
  Some (<[shuffled := result]> h1, shuffled).

(** [Math.random()] returns a number in [0, 1). *)
Definition unit_interval (random : nat -> Q) : Prop :=
  forall k, (0 <= random k /\ random k < 1)%Q.

End Shuffle.

End Shuffle.

(** ** Session and playback controller *)

Module Controller.
Import Credential.

(** *** Platform objects *)

(** [AudioContext.state].  The third state of the platform, closed, is
    entered only by [close()], which the program never calls. *)
Inductive AudioContextState : Type := suspended | running.

Record AudioContext : Type := mkAudioContext {
  ctx_sampleRate : Z;
  ctx_state : AudioContextState
}.

(** Life of an [AudioBufferSourceNode]: created, started, then either
    stopped by [stop()] (its ended event still to be dispatched) or
    ended (the ended event was dispatched). *)
Inductive SourceStatus : Type := unstarted | playing | stopped | ended.

Record Source : Type := mkSource {
  src_context : nat;
  src_buffer : option PCM.AudioBuffer;
  src_connected : bool;
  src_onended : bool;     (* [onended = () => setIsLoadingAudio(false)] is set *)
  src_status : SourceStatus
}.

(** A synthesis request as sent to the remote service. *)
Record Request : Type := mkRequest {
  req_prompt : string;
  req_voice : string
}.

(** The component state ([useState], [useRef]) together with the
    platform objects it refers to.  Contexts and sources are identified
    by their position in [contexts] and [sources], in creation order. *)
Record World : Type := mkWorld {
  env : environment;
  contexts : list AudioContext;
  sources : list Source;
  requests : list Request;
  audioContextRef : option nat;
  currentSourceRef : option nat;
  isLoadingAudio : bool;
  apiError : option string
}.

Definition set_contexts (cs : list AudioContext) (w : World) : World :=
  mkWorld (env w) cs (sources w) (requests w) (audioContextRef w)
          (currentSourceRef w) (isLoadingAudio w) (apiError w).
Definition set_sources (ss : list Source) (w : World) : World :=
  mkWorld (env w) (contexts w) ss (requests w) (audioContextRef w)
          (currentSourceRef w) (isLoadingAudio w) (apiError w).
Definition add_request (r : Request) (w : World) : World :=
  mkWorld (env w) (contexts w) (sources w) (requests w ++ [r]) (audioContextRef w)
          (currentSourceRef w) (isLoadingAudio w) (apiError w).
Definition set_audioContextRef (c : option nat) (w : World) : World :=
  mkWorld (env w) (contexts w) (sources w) (requests w) c
          (currentSourceRef w) (isLoadingAudio w) (apiError w).
Definition set_currentSourceRef (s : option nat) (w : World) : World :=
  mkWorld (env w) (contexts w) (sources w) (requests w) (audioContextRef w)
          s (isLoadingAudio w) (apiError w).
Definition setIsLoadingAudio (b : bool) (w : World) : World :=
  mkWorld (env w) (contexts w) (sources w) (requests w) (audioContextRef w)
          (currentSourceRef w) b (apiError w).
Definition setApiError (e : option string) (w : World) : World :=
  mkWorld (env w) (contexts w) (sources w) (requests w) (audioContextRef w)
          (currentSourceRef w) (isLoadingAudio w) e.

Definition set_source_status (st : SourceStatus) (src : Source) : Source :=
  mkSource (src_context src) (src_buffer src) (src_connected src) (src_onended src) st.

(** [source.stop()]: InvalidStateError on a source that was never
    started; a playing source stops; on a source that already stopped or
    ended the call has no effect. *)
Definition source_stop (s : nat) (w : World) : outcome World :=
  match sources w !! s with
  | None => Thrown TypeError
  | Some src =>
      match src_status src with
      | unstarted => Thrown InvalidStateError
      | playing => Returned (set_sources (<[s := set_source_status stopped src]> (sources w)) w)
      | stopped | ended => Returned w
      end
  end.

(** The platform dispatches the ended event of source [s], after its
    natural end or after [stop()]; the handler set by [playTTS] runs. *)
Definition source_ended (s : nat) (w : World) : option World :=
  src ← sources w !! s;
  match src_status src with
  | playing | stopped =>
      let w1 := set_sources (<[s := set_source_status ended src]> (sources w)) w in
      Some (if src_onended src then setIsLoadingAudio false w1 else w1)
  | unstarted | ended => None
  end.

Definition context_state (c : nat) (w : World) : option AudioContextState :=
  ctx_state <$> contexts w !! c.

Definition set_context_state (c : nat) (st : AudioContextState) (w : World) : World :=
  set_contexts (alter (fun x => mkAudioContext (ctx_sampleRate x) st) c (contexts w)) w.

(** *** [stopCurrentAudio], lines 111-116 of App.tsx *)

Definition stopCurrentAudio (w : World) : outcome World :=
  match currentSourceRef w with
  | Some s =>
      w1 ← try_catch (source_stop s w) (fun _ => Returned w);
      Returned (set_currentSourceRef None w1)
  | None => Returned w
  end.

(** *** [initAudio], lines 101-109 of App.tsx

    An async function runs until its first [await]; what remains is a
    continuation that the event loop runs later.  [init_pc] is where a
    call of [initAudio] stands. *)
Inductive init_pc : Type :=
  | AwaitResume (c : nat)               (* at [await ....resume()] *)
  | InitSettled (r : outcome nat).      (* returned context, or rejected *)

(** From the call to the first [await] or to the end.  [ctor] is what
    [new AudioContext({ sampleRate: 24000 })] would do if evaluated:
    throw, or construct a context in the given initial state. *)
Definition initAudio_begin (ctor : outcome AudioContextState) (w : World)
  : World * init_pc :=
  let constructed : outcome (World * nat) :=
    match audioContextRef w with
    | Some c => Returned (w, c)
    | None =>
        st ← ctor;
        let c := length (contexts w) in
        Returned (set_audioContextRef (Some c)
                    (set_contexts (contexts w ++ [mkAudioContext 24000 st]) w), c)
    end in
  match constructed with
  | Thrown e => (w, InitSettled (Thrown e))
  | Returned (w1, c) =>
      match context_state c w1 with
      | Some suspended => (w1, AwaitResume c)
      | _ => (w1, InitSettled (Returned c))
      end
  end.

(** The promise of [resume()] settles.  When it is fulfilled the
    platform has made the context running; [initAudio] then returns
    [audioContextRef.current].  The reference is never reset once set, so
    it is not null here; the last branch stands for the null that a
    caller could not use. *)
Definition initAudio_resumed (c : nat) (r : outcome unit) (w : World)
  : World * init_pc :=
  match r with
  | Thrown e => (w, InitSettled (Thrown e))
  | Returned _ =>
      let w1 := set_context_state c running w in
      match audioContextRef w1 with
      | Some c' => (w1, InitSettled (Returned c'))
      | None => (w1, InitSettled (Thrown TypeError))
      end
  end.

(** *** [playTTS], lines 118-155 of App.tsx *)

(** Statements that read and write the component state and may throw. *)
Definition M (A : Type) : Type := World -> World * outcome A.

#[local] Instance M_ret : MRet M := fun A a w => (w, Returned a).
#[local] Instance M_bind : MBind M := fun A B k m w =>
  match m w with
  | (w1, Returned a) => k a w1
  | (w1, Thrown e) => (w1, Thrown e)
  end.

Definition throw {A} (e : exn) : M A := fun w => (w, Thrown e).
Definition lift {A} (o : outcome A) : M A := fun w => (w, o).
Definition modify (f : World -> World) : M unit := fun w => (f w, Returned tt).
Definition get {A} (f : World -> A) : M A := fun w => (w, Returned (f w)).

(** What the platform does on the three calls that build and start a
    source, when it does not simply succeed. *)
Record faults : Type := mkFaults {
  createBufferSource_fault : option exn;
  connect_fault : option exn;
  start_fault : option exn
}.
Definition no_faults : faults := mkFaults None None None.

Definition platform_call (fault : option exn) : M unit :=
  match fault with
  | Some e => throw e
  | None => mret tt
  end.

Definition update_source (s : nat) (f : Source -> Source) : M unit :=
  modify (fun w => set_sources (alter f s (sources w)) w).

(** Where a call of [playTTS] stands. *)
Inductive speak_pc : Type :=
  | AwaitInit (p : init_pc)                                (* [await initAudio()] *)
  | AwaitGenerate (ctx : nat)                              (* [await ai.models.generateContent(...)] *)
  | AwaitDecode (ctx : nat) (r : outcome PCM.AudioBuffer)  (* [await decodeAudioData(...)] *)
  | SpeakSettled (r : outcome unit).

Section PlayTTS.

(** The message of the catch block: "Voz no disponible. Revisa tu
    conexion o API KEY." in App.tsx (line 153), "Voz desactivada" in
    the later revision (line 168). *)
Variable voice_unavailable : string.

(** The [catch] block, lines 150-154. *)
Definition catch_block (w : World) : World :=
  setApiError (Some voice_unavailable) (setIsLoadingAudio false w).

(** [try { body } catch (error) { ... }] around a part of the body of
    [playTTS]; after the catch block the function returns normally. *)
Definition guarded (body : M speak_pc) (w : World) : World * speak_pc :=
  match body w with
  | (w1, Returned p) => (w1, p)
  | (w1, Thrown _) => (catch_block w1, SpeakSettled (Returned tt))
  end.

(** Lines 119-120: [stopCurrentAudio()], then the call of [initAudio]
    up to its first [await].  Both are outside the [try]. *)
Definition playTTS_begin (ctor : outcome AudioContextState) (w : World)
  : World * speak_pc :=
  match stopCurrentAudio w with
  | Thrown e => (w, SpeakSettled (Thrown e))
  | Returned w1 =>
      let '(w2, p) := initAudio_begin ctor w1 in (w2, AwaitInit p)
  end.

(** Lines 124-137, inside the [try]: the key is read and checked and
    the request is sent.  A failure of the client or of the request,
    raised at once or later, is the rejection handled in
    [respond_body]. *)
Definition request_body (text : string) (isEnglish : bool) (ctx : nat) : M speak_pc :=
  apiKey ← (fun w => (w, read_API_KEY (env w)));
  if falsy apiKey || strict_eq apiKey "undefined" then throw NO_KEY
  else
    _ ← modify (add_request
           (mkRequest ((if isEnglish then "Repeat clearly:" else "") +:+ " " +:+ text)
                      (if isEnglish then "Charon" else "Kore")));
    mret (AwaitGenerate ctx).

(** Continuation of [await initAudio()], lines 120-137.  A rejection
    of [initAudio] leaves [playTTS] before the [try] is entered. *)
Definition playTTS_after_init (text : string) (isEnglish : bool) (r : outcome nat)
    (w : World) : World * speak_pc :=
  match r with
  | Thrown e => (w, SpeakSettled (Thrown e))
  | Returned ctx => guarded (request_body text isEnglish ctx) (setIsLoadingAudio true w)
  end.

(** Lines 139-141.  [r] is how the request settled: rejected, or
    fulfilled with a response in which
    [response.candidates?.[0]?.content?.parts?.[0]?.inlineData?.data]
    is [undefined] ([None]) or a string.  [if (base64Audio)] is false
    for [undefined] and for the empty string. *)
Definition respond_body (ctx : nat) (r : outcome (option (list Z))) : M speak_pc :=
  base64Audio ← lift r;
  match base64Audio with
  | Some (c :: rest) =>
      bytes ← lift (Base64.decodeBase64 (c :: rest));
      mret (AwaitDecode ctx (PCM.decodeAudioData bytes 24000 1))
  | Some [] | None => mret (SpeakSettled (Returned tt))
  end.

Definition playTTS_after_generate (ctx : nat) (r : outcome (option (list Z)))
  : World -> World * speak_pc :=
  guarded (respond_body ctx r).

(** Lines 141-148, once [decodeAudioData] has settled with [r]. *)
Definition play_body (ctx : nat) (r : outcome PCM.AudioBuffer) (f : faults) : M speak_pc :=
  audioBuffer ← lift r;
  _ ← platform_call (createBufferSource_fault f);
  source ← get (fun w => length (sources w));
  _ ← modify (fun w => set_sources (sources w ++ [mkSource ctx None false false unstarted]) w);
  _ ← update_source source (fun s =>
         mkSource (src_context s) (Some audioBuffer) (src_connected s) (src_onended s) (src_status s));
  _ ← platform_call (connect_fault f);
  _ ← update_source source (fun s =>
         mkSource (src_context s) (src_buffer s) true (src_onended s) (src_status s));
  _ ← update_source source (fun s =>
         mkSource (src_context s) (src_buffer s) (src_connected s) true (src_status s));
  _ ← modify (set_currentSourceRef (Some source));
  _ ← platform_call (start_fault f);
  _ ← update_source source (set_source_status playing);
  _ ← modify (setApiError None);
  mret (SpeakSettled (Returned tt)).

Definition playTTS_after_decode (ctx : nat) (r : outcome PCM.AudioBuffer) (f : faults)
  : World -> World * speak_pc :=
  guarded (play_body ctx r f).

(** *** The event loop

    Calls run to their next [await]; the environment decides when and
    how each awaited promise settles, when a source ends and when the
    browser suspends the context. *)
Inductive task : Type :=
  | InitTask (p : init_pc)
  | SpeakTask (text : string) (isEnglish : bool) (p : speak_pc).

Record system : Type := mkSystem {
  world : World;
  tasks : list task
}.

Inductive event : Type :=
  | CallInitAudio (ctor : outcome AudioContextState)
  | CallPlayTTS (text : string) (isEnglish : bool) (ctor : outcome AudioContextState)
  | ResumeSettled (t : nat) (r : outcome unit)
  | InitReturned (t : nat)
  | GenerateSettled (t : nat) (r : outcome (option (list Z)))
  | DecodeReturned (t : nat) (f : faults)
  | SourceEnded (s : nat)
  | ContextSuspended (c : nat).

Definition spawn (σ : system) (wt : World * task) : system :=
  mkSystem (fst wt) (tasks σ ++ [snd wt]).

Definition resume_task (σ : system) (t : nat) (wt : World * task) : system :=
  mkSystem (fst wt) (<[t := snd wt]> (tasks σ)).

Definition step (σ : system) (e : event) : option system :=
  let w := world σ in
  match e with
  | CallInitAudio ctor =>
      let '(w1, p) := initAudio_begin ctor w in Some (spawn σ (w1, InitTask p))
  | CallPlayTTS text isEnglish ctor =>
      let '(w1, p) := playTTS_begin ctor w in
      Some (spawn σ (w1, SpeakTask text isEnglish p))
  | ResumeSettled t r =>
      match tasks σ !! t with
      | Some (InitTask (AwaitResume c)) =>
          let '(w1, p) := initAudio_resumed c r w in
          Some (resume_task σ t (w1, InitTask p))
      | Some (SpeakTask text isEnglish (AwaitInit (AwaitResume c))) =>
          let '(w1, p) := initAudio_resumed c r w in
          Some (resume_task σ t (w1, SpeakTask text isEnglish (AwaitInit p)))
      | _ => None
      end
  | InitReturned t =>
      match tasks σ !! t with
      | Some (SpeakTask text isEnglish (AwaitInit (InitSettled r))) =>
          let '(w1, p) := playTTS_after_init text isEnglish r w in
          Some (resume_task σ t (w1, SpeakTask text isEnglish p))
      | _ => None
      end
  | GenerateSettled t r =>
      match tasks σ !! t with
      | Some (SpeakTask text isEnglish (AwaitGenerate ctx)) =>
          let '(w1, p) := playTTS_after_generate ctx r w in
          Some (resume_task σ t (w1, SpeakTask text isEnglish p))
      | _ => None
      end
  | DecodeReturned t f =>
      match tasks σ !! t with
      | Some (SpeakTask text isEnglish (AwaitDecode ctx r)) =>
          let '(w1, p) := playTTS_after_decode ctx r f w in
          Some (resume_task σ t (w1, SpeakTask text isEnglish p))
      | _ => None
      end
  | SourceEnded s =>
      w1 ← source_ended s w; Some (mkSystem w1 (tasks σ))
  | ContextSuspended c =>
      match context_state c w with
      | Some running => Some (mkSystem (set_context_state c suspended w) (tasks σ))
      | _ => None
      end
  end.

Fixpoint run (σ : system) (trace : list event) : option system :=
  match trace with
  | [] => Some σ
  | e :: trace' => σ1 ← step σ e; run σ1 trace'
  end.

(** The component as mounted: nothing constructed, nothing playing. *)
Definition mounted (environ : environment) (err : option string) : system :=
  mkSystem (mkWorld environ [] [] [] None None false err) [].


(** The sources that are producing sound. *)
Definition is_playing (w : World) (s : nat) : bool :=
  match src_status <$> sources w !! s with
  | Some playing => true
  | _ => false
  end.

Definition active_sources (w : World) : list nat :=
  filter (fun s => is_playing w s = true) (seq 0 (length (sources w))).







End PlayTTS.

(** The two texts of the catch block. *)
Definition message_App : string := "Voz no disponible. Revisa tu conexión o API KEY.".
Definition message_later : string := "Voz desactivada".

End Controller.

(** ** The quiz state and its handlers *)

Module Game.

(** [feedbackType]: 'none', 'success', 'hint', 'error'. *)
Inductive FeedbackType : Type := fb_none | fb_success | fb_hint | fb_error.

#[global] Instance FeedbackType_eq_dec : EqDecision FeedbackType.
Proof. solve_decision. Defined.

(** The [state] of the component, as initialised at lines 46-57 of
    App.tsx. *)
Record GameState : Type := mkGameState {
  gameStarted : bool;
  activeMission : nat;
  currentQuestionIndex : nat;
  userAnswer : string;
  attempts : nat;
  score : nat;
  feedbackType : FeedbackType;
  feedbackMessage : string;
  isGameOver : bool;
  showExplanation : bool
}.

Definition initial_state : GameState :=
  mkGameState false 1 0 "" 0 0 fb_none "" false false.

(** The fields of a question record that the component reads.  Texts are
    kept as opaque strings: the handlers only compare and concatenate
    them. *)
Record Question : Type := mkQuestion {
  q_mission : nat;
  q_text : string;
  q_options : list string;
  q_correctAnswer : string;
  q_hint : string;
  q_translation : string
}.

(** [MISSION_THEMES], line 41: one navigation button per entry. *)
Definition MISSION_THEMES : list string :=
  ["Greetings"; "Food & Drinks"; "Routines"; "Hobbies"; "Body & Health"].

(** What a handler asks [playTTS] to say: the text and [isEnglish]. *)
Definition speech : Type := (string * bool)%type.

Section Quiz.

(** The table [QUESTIONS] of ./constants and the platform's
    [String.prototype.toLowerCase]. *)
Variable QUESTIONS : list Question.
Variable toLowerCase : string -> string.

(** Lines 93-98. *)
Definition missionQuestions (g : GameState) : list Question :=
  filter (fun q => q_mission q = activeMission g) QUESTIONS.

Definition currentQuestion (g : GameState) : option Question :=
  missionQuestions g !! currentQuestionIndex g.

(** [handleOptionClick(option)], lines 166-199.  The result is the state after
    the queued updates, and what the handler did besides: it threw (on
    [currentQuestion.correctAnswer] without a current question), or
    returned after asking for a speech or for none. *)
Definition handleOptionClick (opt : string) (g : GameState)
  : GameState * outcome (option speech) :=
  if showExplanation g then (g, Returned None)
  else
    let g1 := mkGameState (gameStarted g) (activeMission g) (currentQuestionIndex g)
                opt (attempts g) (score g) (feedbackType g) (feedbackMessage g)
                (isGameOver g) (showExplanation g) in
    match currentQuestion g with
    | None => (g1, Thrown TypeError)
    | Some q =>
        if bool_decide (toLowerCase opt = toLowerCase (q_correctAnswer q)) then
          (mkGameState (gameStarted g1) (activeMission g1) (currentQuestionIndex g1)
             (userAnswer g1) (attempts g1) (score g1 + 1) fb_success
             "¡Increíble! ¡Correcto! 🌟" (isGameOver g1) true,
           Returned (Some ("Correct! " +:+ q_translation q, true)))
        else if bool_decide (attempts g = 0%nat) then
          (mkGameState (gameStarted g1) (activeMission g1) (currentQuestionIndex g1)
             (userAnswer g1) 1 (score g1) fb_hint
             ("💡 Pista: " +:+ q_hint q) (isGameOver g1) (showExplanation g1),
           Returned (Some ("Try again!", true)))
        else
          (mkGameState (gameStarted g1) (activeMission g1) (currentQuestionIndex g1)
             (userAnswer g1) (attempts g1) (score g1) fb_error
             ("¡Oh no! Era: " +:+ q_correctAnswer q) (isGameOver g1) true,
           Returned None)
    end.

(** A series of clicks on option buttons, with nothing else in between. *)
Definition clicks (g : GameState) (opts : list string) : GameState :=
  foldl (fun g opt => fst (handleOptionClick opt g)) g opts.

(** The handler of the "next question" button, lines 328-331. *)
Definition nextQuestion (g : GameState) : GameState :=
  if bool_decide (length (missionQuestions g) <= currentQuestionIndex g + 1)%nat then
    mkGameState (gameStarted g) (activeMission g) (currentQuestionIndex g)
      (userAnswer g) (attempts g) (score g) (feedbackType g) (feedbackMessage g)
      true (showExplanation g)
  else
    mkGameState (gameStarted g) (activeMission g) (currentQuestionIndex g + 1)
      "" 0 (score g) fb_none (feedbackMessage g) (isGameOver g) false.

(** The handler of the mission button number [idx], line 264. *)
Definition selectMission (idx : nat) (g : GameState) : GameState :=
  mkGameState (gameStarted g) (idx + 1) 0 "" (attempts g) (score g) fb_none
    (feedbackMessage g) (isGameOver g) false.

(** The handler of the "play again" button, line 279. *)
Definition playAgain (g : GameState) : GameState :=
  mkGameState (gameStarted g) (activeMission g) 0 (userAnswer g) (attempts g) 0
    (feedbackType g) (feedbackMessage g) false (showExplanation g).

(** The update [startGame] makes when it succeeds, line 163. *)
Definition started (g : GameState) : GameState :=
  mkGameState true (activeMission g) (currentQuestionIndex g) (userAnswer g)
    (attempts g) (score g) (feedbackType g) (feedbackMessage g) (isGameOver g)
    (showExplanation g).

(** *** What the rendered page lets the player do

    Before the game has started only the start button is rendered.
    Afterwards the page shows the mission buttons and either the game-over
    panel with its "play again" button or the question panel; rendering the
    question panel reads [currentQuestion.text], so without a current
    question nothing is rendered at all.  Option buttons are disabled while
    the explanation is shown; the "next" button exists only inside the
    explanation. *)
Inductive action : Type :=
  | StartGame
  | SelectMission (idx : nat)
  | ClickOption (opt : string)
  | ClickNext
  | ClickPlayAgain.

Definition renders (g : GameState) : bool :=
  isGameOver g || bool_decide (is_Some (currentQuestion g)).

Definition offered (g : GameState) (a : action) : bool :=
  match a with
  | StartGame => negb (gameStarted g)
  | SelectMission idx =>
      gameStarted g && renders g && bool_decide (idx < length MISSION_THEMES)%nat
  | ClickOption opt =>
      gameStarted g && negb (isGameOver g) && negb (showExplanation g)
      && match currentQuestion g with
         | Some q => bool_decide (opt ∈ q_options q)
         | None => false
         end
  | ClickNext =>
      gameStarted g && negb (isGameOver g) && renders g
      && negb (bool_decide (feedbackType g = fb_none)) && showExplanation g
  | ClickPlayAgain => gameStarted g && isGameOver g
  end.

Definition perform (g : GameState) (a : action) : GameState :=
  match a with
  | StartGame => started g
  | SelectMission idx => selectMission idx g
  | ClickOption opt => fst (handleOptionClick opt g)
  | ClickNext => nextQuestion g
  | ClickPlayAgain => playAgain g
  end.

Definition play_step (g : GameState) (a : action) : option GameState :=
  if offered g a then Some (perform g a) else None.

Fixpoint play (g : GameState) (actions : list action) : option GameState :=
  match actions with
  | [] => Some g
  | a :: actions' => g1 ← play_step g a; play g1 actions'
  end.

Definition playable (g : GameState) : Prop :=
  exists actions, play initial_state actions = Some g.

(** What every state of a game in progress satisfies. *)
Definition explained (g : GameState) : Prop :=
  feedbackType g = fb_success \/ feedbackType g = fb_error.

Definition well_formed (g : GameState) : Prop :=
  (attempts g <= 1)%nat
  /\ (showExplanation g = true <-> explained g)
  /\ (feedbackType g = fb_hint -> attempts g = 1%nat)
  /\ (1 <= activeMission g <= length MISSION_THEMES)%nat
  /\ (currentQuestionIndex g = 0%nat
      \/ (currentQuestionIndex g < length (missionQuestions g))%nat).

(** The state after a click on the correct answer of question [q]. *)
Definition answered (g : GameState) (q : Question) : GameState :=
  mkGameState (gameStarted g) (activeMission g) (currentQuestionIndex g)
    (q_correctAnswer q) (attempts g) (score g + 1) fb_success
    "¡Increíble! ¡Correcto! 🌟" (isGameOver g) true.

(** Answering the current question correctly and moving on, once for
    each of [n] questions. *)
Fixpoint perfect_run (g : GameState) (n : nat) : option GameState :=
  match n with
  | O => Some g
  | S n' =>
      q ← currentQuestion g;
      g1 ← play g [ClickOption (q_correctAnswer q); ClickNext];
      perfect_run g1 n'
  end.

End Quiz.

End Game.

(** ** Starting the game *)

Module Start.
Import Credential Controller.

Record App : Type := mkApp {
  audio : World;
  game : Game.GameState
}.

Section StartGame.

(** The message [startGame] shows for a missing key (line 160 of App.tsx,
    line 175 of the later revision). *)
Variable key_missing : string.

(** [startGame] after [await initAudio()] has settled with [r]. *)
Definition startGame_after_init (r : outcome nat) (app : App) : App * outcome unit :=
  match r with
  | Thrown e => (app, Thrown e)
  | Returned _ =>
      match checkApiKey (env (audio app)) with
      | Thrown e => (app, Thrown e)
      | Returned valid =>
          if negb valid then
            (mkApp (setApiError (Some key_missing) (audio app)) (game app), Returned tt)
          else (mkApp (audio app) (Game.started (game app)), Returned tt)
      end
  end.

End StartGame.

End Start.

(** ** Calls of [playTTS] that do not overlap *)

Module Sequential.
Import Controller.

(** A call of [playTTS] that has not settled yet. *)
Definition speak_pending (tk : task) : bool :=
  match tk with
  | SpeakTask _ _ (SpeakSettled _) => false
  | SpeakTask _ _ _ => true
  | InitTask _ => false
  end.

(** The event is not a call of [playTTS] made while another is pending. *)
Definition admits (σ : system) (e : event) : bool :=
  match e with
  | CallPlayTTS _ _ _ => negb (existsb speak_pending (tasks σ))
  | _ => true
  end.

Fixpoint run_sequential (msg : string) (σ : system) (trace : list event) : option system :=
  match trace with
  | [] => Some σ
  | e :: trace' =>
      if admits σ e then σ1 ← step msg σ e; run_sequential msg σ1 trace' else None
  end.

(** Only the tracked source plays, and none does while a call is
    pending. *)
Definition one_stream (σ : system) : Prop :=
  (forall s, is_playing (world σ) s = true -> currentSourceRef (world σ) = Some s)
  /\ (forall t tk, tasks σ !! t = Some tk -> speak_pending tk = true ->
        (forall s, is_playing (world σ) s = false)
        /\ (forall t' tk', tasks σ !! t' = Some tk' -> speak_pending tk' = true -> t' = t)).

(** A step of the program that leaves sources and their tracking alone. *)
Definition keeps_playback (w w' : World) : Prop :=
  sources w' = sources w /\ currentSourceRef w' = currentSourceRef w.

End Sequential.

(** ** The hero image and the story (the two other remote calls) *)

Module Lab.

(** The parts of a response that the handler reads: every field is
    optional in the client library's types. *)
Record Part : Type := mkPart {
  inlineData : option (option string)     (* the blob, and its [data] *)
}.

Record Content : Type := mkContent {
  parts : option (list Part)
}.

Record Candidate : Type := mkCandidate {
  content : option Content
}.

Record Response : Type := mkResponse {
  candidates : option (list Candidate)
}.

Record LabState : Type := mkLabState {
  creationPrompt : string;
  createdImageUrl : option string;
  isCreatingImage : bool
}.

(** [res.candidates?.[0]?.content?.parts.find(p => p.inlineData)]: the
    optional chain stops at an undefined candidate or content, but [.find]
    is called on [parts] unguarded. *)
Definition find_image (res : Response) : outcome (option Part) :=
  match candidates res with
  | None => Returned None
  | Some cs =>
      match cs !! 0%nat with
      | None => Returned None
      | Some c =>
          match content c with
          | None => Returned None
          | Some ct =>
              match parts ct with
              | None => Thrown TypeError
              | Some ps => Returned (list_find (fun p => is_Some (inlineData p)) ps
                                     ≫= fun ip => Some (snd ip))
              end
          end
      end
  end.

(** A template literal prints an undefined value as "undefined". *)
Definition interpolate (v : option string) : string :=
  match v with
  | Some s => s
  | None => "undefined"
  end.

(** The callback of [.then], lines 353-357. *)
Definition image_then (res : Response) (st : LabState) : outcome LabState :=
  img ← find_image res;
  let st1 :=
    match img ≫= inlineData with
    | Some blob =>
        mkLabState (creationPrompt st)
          (Some ("data:image/png;base64," +:+ interpolate blob)) (isCreatingImage st)
    | None => st
    end in
  Returned (mkLabState (creationPrompt st1) (createdImageUrl st1) false).

(** [.then(...).catch(() => setIsCreatingImage(false))] applied to the
    settled request: the catch also receives what the callback throws. *)
Definition image_settled (r : outcome Response) (st : LabState) : LabState :=
  match (res ← r; image_then res st) with
  | Returned st' => st'
  | Thrown _ => mkLabState (creationPrompt st) (createdImageUrl st) false
  end.

End Lab.

Module Story.

(** *** The two regular expressions

    Both have the flag [i] and no flag [u]: a pattern letter matches its
    two ASCII cases and nothing else, and every other pattern character
    matches itself only. *)
Definition ci_eq (p c : Z) : bool :=
  (c =? p) || ((65 <=? p) && (p <=? 90) && (c =? p + 32)).

Fixpoint ci_prefix (pat s : list Z) : bool :=
  match pat, s with
  | [], _ => true
  | p :: pat', c :: s' => ci_eq p c && ci_prefix pat' s'
  | _ :: _, [] => false
  end.

(** Leftmost position at which [pat] matches. *)
Fixpoint find_ci (pat s : list Z) : option nat :=
  match s with
  | [] => if ci_prefix pat [] then Some 0%nat else None
  | _ :: s' => if ci_prefix pat s then Some 0%nat else S <$> find_ci pat s'
  end.

Definition STORY : list Z := units "STORY: ".
Definition TRANSLATION_colon : list Z := units "TRANSLATION:".
Definition TRANSLATION_space : list Z := units "TRANSLATION: ".

(** [text.match(/STORY: ([\s\S]*?)TRANSLATION:/i)?.[1]]: start positions
    are tried from the left; at a position where "STORY: " matches, the
    lazy group takes the fewest characters after which "TRANSLATION:"
    matches, and the next position is tried when there is none. *)
Fixpoint match_story (text : list Z) : option (list Z) :=
  match text with
  | [] => None
  | _ :: rest =>
      if ci_prefix STORY text then
        match find_ci TRANSLATION_colon (drop 7 text) with
        | Some k => Some (take k (drop 7 text))
        | None => match_story rest
        end
      else match_story rest
  end.

(** The second match, on the pattern "TRANSLATION: " followed by a greedy
    group of arbitrary characters (flag [i]): the group takes everything
    after the leftmost "TRANSLATION: ". *)
Definition match_translation (text : list Z) : option (list Z) :=
  k ← find_ci TRANSLATION_space text;
  Some (drop (k + 13) text).

(** White space and line terminators, which [trim] removes. *)
Definition is_white_space (c : Z) : bool :=
  (c =? 9) || (c =? 10) || (c =? 11) || (c =? 12) || (c =? 13) || (c =? 32)
  || (c =? 160) || (c =? 5760) || ((8192 <=? c) && (c <=? 8202))
  || (c =? 8232) || (c =? 8233) || (c =? 8239) || (c =? 8287)
  || (c =? 12288) || (c =? 65279).

Fixpoint trim_start (s : list Z) : list Z :=
  match s with
  | c :: s' => if is_white_space c then trim_start s' else s
  | [] => []
  end.

Definition trim (s : list Z) : list Z :=
  reverse (trim_start (reverse (trim_start s))).

Record StoryState : Type := mkStoryState {
  storyWords : list (list Z);
  generatedStory : option (list Z * list Z);
  isGeneratingStory : bool
}.

(** The callback of [.then], lines 381-387.  [text] is [res.text]. *)
Definition story_then (text : option (list Z)) (st : StoryState) : StoryState :=
  let text := default [] text in
  let en := trim <$> match_story text in
  let es := trim <$> match_translation text in
  let st1 :=
    match en, es with
    | Some (c :: en'), Some (d :: es') =>
        mkStoryState (storyWords st) (Some (c :: en', d :: es')) (isGeneratingStory st)
    | _, _ => st
    end in
  mkStoryState (storyWords st1) (generatedStory st1) false.

(** [.then(...).catch(() => setIsGeneratingStory(false))]. *)
Definition story_settled (r : outcome (option (list Z))) (st : StoryState) : StoryState :=
  match r with
  | Returned text => story_then text st
  | Thrown _ => mkStoryState (storyWords st) (generatedStory st) false
  end.

End Story.

(** ** The options shown for a question (later revision) *)

Module Options.

(** [shuffledOptions], lines 110-113 of the later revision: the options of
    the current question, shuffled, or none without a current question. *)
Definition shuffledOptions (random : nat -> Q) (currentQuestion : option Game.Question)
  : option (list string) :=
  match currentQuestion with
  | None => Some []
  | Some q =>
      Shuffle.fisher_yates random 0 (length (Game.q_options q) - 1) (Game.q_options q)
  end.

End Options.


Example ex_b64_1 : Base64.decodeBase64 (units "TWFu") = Returned (units "Man"). Proof. reflexivity. Qed.
Example ex_b64_2 : Base64.decodeBase64 (units "TWE=") = Returned (units "Ma"). Proof. reflexivity. Qed.
Example ex_b64_3 : Base64.decodeBase64 (units "YQ") = Returned (units "a"). Proof. reflexivity. Qed.
Example ex_b64_4 : Base64.decodeBase64 (units "YQ=") = Returned []. Proof. reflexivity. Qed.
Example ex_b64_5 : Base64.rfc4648_encode (units "Ma") = units "TWE=". Proof. reflexivity. Qed.
Example ex_b64_6 : Base64.spec_well_formed (units "YQ") = false. Proof. reflexivity. Qed.
Example ex_b64_7 : Base64.decodeBase64 (units "Y Q = =") = Returned (units "a"). Proof. reflexivity. Qed.
Example ex_b64_8 : Base64.decodeBase64 (units "====") = Returned []. Proof. reflexivity. Qed.
Example ex_pcm_1 :
  PCM.decodeAudioData [0; 128; 255; 127; 1; 0] 24000 1
  = Returned (PCM.mkAudioBuffer 1 3 24000
                [[PCM.Num (Qmake (-32768) 32768); PCM.Num (Qmake 32767 32768);
                  PCM.Num (Qmake 1 32768)]]).
Proof. reflexivity. Qed.
Example ex_pcm_2 : PCM.decodeAudioData [] 24000 1 = Thrown NotSupportedError.
Proof. reflexivity. Qed.
Example ex_pcm_3 :
  PCM.decodeAudioData [1; 0; 2; 0; 3; 0; 4; 0; 5; 0] 24000 2
  = Returned (PCM.mkAudioBuffer 2 2 24000
                [[PCM.Num (Qmake 1 32768); PCM.Num (Qmake 3 32768)];
                 [PCM.Num (Qmake 2 32768); PCM.Num (Qmake 4 32768)]]).
Proof. reflexivity. Qed.
Example ex_speak_no_key :
  Controller.run Controller.message_later
    (Controller.mounted (Credential.ProcessEnv None) None)
    [Controller.CallPlayTTS "Hello" true (Returned Controller.running);
     Controller.InitReturned 0]
  = Some (Controller.mkSystem
            (Controller.mkWorld (Credential.ProcessEnv None)
               [Controller.mkAudioContext 24000 Controller.running] [] []
               (Some 0%nat) None false (Some "Voz desactivada"%string))
            [Controller.SpeakTask "Hello" true (Controller.SpeakSettled (Returned tt))]).
Proof. reflexivity. Qed.
Example ex_speak_bad_payload :
  Controller.playTTS_after_generate Controller.message_later 0
    (Returned (Some (units "!!")))
    (Controller.mkWorld Credential.NoProcess [] [] [] (Some 0%nat) None true None)
  = (Controller.mkWorld Credential.NoProcess [] [] [] (Some 0%nat) None true None,
     Controller.AwaitDecode 0 (Thrown NotSupportedError)).
Proof. reflexivity. Qed.
Example ex_shuffle_1 :
  Shuffle.shuffleArray (fun k => Qmake 1 2) {[ 7%nat := [10; 20; 30; 40] ]} 7%nat
  = Some (<[ 8%nat := [10; 40; 20; 30] ]> {[ 7%nat := [10; 20; 30; 40] ]}, 8%nat).
Proof. vm_compute. reflexivity. Qed.

(** * Properties *)

(** ** Shared lemmas *)

(** A loop that writes [g i] at every index [i] below [k] of an array at
    least [k] long. *)
Lemma foldl_insert_seq {A} (g : nat -> A) (l0 : list A) (k : nat) :
  (k <= length l0)%nat ->
  foldl (fun l i => <[i := g i]> l) l0 (seq 0 k) = (g <$> seq 0 k) ++ drop k l0.
Proof.
  induction k as [|k IH]; intros Hk.
  - by rewrite drop_0.
  - rewrite seq_S, foldl_app, fmap_app. cbn [foldl fmap list_fmap Nat.add].
    rewrite IH by lia.
    assert (Hlen : length (g <$> seq 0 k) = k) by (by rewrite length_fmap, length_seq).
    destruct (drop k l0) as [|x tl] eqn:Hd.
    { apply (f_equal length) in Hd. rewrite length_drop in Hd. simpl in Hd. lia. }
    replace (drop (S k) l0) with tl.
    2:{ replace (S k) with (k + 1)%nat by lia. rewrite <- drop_drop, Hd. done. }
    rewrite <- (Nat.add_0_r k) at 1. rewrite <- Hlen at 1.
    rewrite insert_app_r. cbn. by rewrite <- app_assoc.
Qed.

Lemma fmap_lookup_seq {A} (l : list A) (d : A) :
  (fun i => default d (l !! i)) <$> seq 0 (length l) = l.
Proof.
  apply list_eq. intros i. rewrite list_lookup_fmap.
  destruct (decide (i < length l)%nat) as [Hi|Hi].
  - rewrite lookup_seq_lt by done. simpl.
    destruct (lookup_lt_is_Some_2 l i Hi) as [x Hx]. by rewrite Hx.
  - rewrite lookup_seq_ge by lia. simpl. symmetry. apply lookup_ge_None. lia.
Qed.

Ltac euclid := Z.to_euclidean_division_equations; lia.

(** ** The credential check *)

Section CredentialProperties.
Import Credential.

Lemma checkApiKey_string (s : string) :
  checkApiKey (ProcessEnv (Some s))
  = Returned (negb (Z.of_nat (String.length s) <? 10)).
Proof.
  unfold checkApiKey. cbn.
  repeat case_bool_decide; subst; try reflexivity.
  destruct (Z.of_nat (String.length s) <? 10); reflexivity.
Qed.

(** C9.  The check never raises; it answers "invalid" exactly when the
    credential is absent, is the literal "undefined", is empty, or has
    fewer than 10 characters.  Hence every credential of 5 characters is
    invalid and every credential of 10 characters is valid (such a string
    cannot be the 9-character placeholder). *)
Theorem checkApiKey_spec :
  (forall environ, exists b,
      checkApiKey environ = Returned b
      /\ (b = false <-> spec_invalid (credential environ)))
  /\ (forall s, String.length s = 5%nat ->
       checkApiKey (ProcessEnv (Some s)) = Returned false)
  /\ (forall s, String.length s = 10%nat ->
       checkApiKey (ProcessEnv (Some s)) = Returned true).
Proof.
  split; [|split].
  - intros [|[s|]].
    + exists false. split; [reflexivity|]. split; [|done]. intros _. by left.
    + exists (negb (Z.of_nat (String.length s) <? 10)).
      split; [apply checkApiKey_string|].
      unfold spec_invalid. cbn. split.
      * intros H. right; right; right. exists s. split; [done|].
        apply negb_false_iff, Z.ltb_lt in H. lia.
      * intros [H|[H|[H|(s' & H & Hlt)]]]; simplify_eq; try reflexivity.
        apply negb_false_iff, Z.ltb_lt. lia.
    + exists false. split; [reflexivity|]. split; [|done]. intros _. by left.
  - intros s Hs. rewrite checkApiKey_string, Hs. reflexivity.
  - intros s Hs. rewrite checkApiKey_string, Hs. reflexivity.
Qed.

Lemma checkApiKey_spec_witness :
  checkApiKey (ProcessEnv (Some "abcde"%string)) = Returned false
  /\ checkApiKey (ProcessEnv (Some "abcdefghij"%string)) = Returned true.
Proof.
  destruct checkApiKey_spec as (_ & H5 & H10).
  split; [apply H5 | apply H10]; reflexivity.
Defined.

End CredentialProperties.

(** ** The base64 decoder *)

Section Base64Properties.
Import Base64.

Lemma list_ind4 {A} (P : list A -> Prop) :
  P [] -> (forall a, P [a]) -> (forall a b, P [a; b]) -> (forall a b c, P [a; b; c]) ->
  (forall a b c d l, P l -> P (a :: b :: c :: d :: l)) ->
  forall l, P l.
Proof.
  intros H0 H1 H2 H3 H4 l.
  cut (P l /\ (forall a, P (a :: l)) /\ (forall a b, P (a :: b :: l))
       /\ (forall a b c, P (a :: b :: c :: l))); [tauto|].
  induction l as [|x l (IH0 & IH1 & IH2 & IH3)]; auto.
Qed.

Lemma list_ind3 {A} (P : list A -> Prop) :
  P [] -> (forall a, P [a]) -> (forall a b, P [a; b]) ->
  (forall a b c l, P l -> P (a :: b :: c :: l)) ->
  forall l, P l.
Proof.
  intros H0 H1 H2 H3 l.
  cut (P l /\ (forall a, P (a :: l)) /\ (forall a b, P (a :: b :: l))); [tauto|].
  induction l as [|x l (IH0 & IH1 & IH2)]; auto.
Qed.

Lemma sextet_range c v : sextet c = Some v -> is_sextet v.
Proof.
  unfold sextet, is_sextet. intros H.
  repeat match type of H with
         | context [if ?b then _ else _] => destruct b eqn:?
         end; simplify_eq; lia.
Qed.

Lemma sextets_range d vs : sextets d = Some vs -> Forall is_sextet vs.
Proof.
  revert vs. induction d as [|c d IH]; intros vs H; cbn in H.
  - by simplify_eq.
  - destruct (sextet c) eqn:Hc; [|done].
    destruct (sextets d) eqn:Hd; [|done]. simplify_eq.
    constructor; eauto using sextet_range.
Qed.

Lemma sextets_None_iff d :
  sextets d = None <-> forallb (fun c => bool_decide (is_Some (sextet c))) d = false.
Proof.
  induction d as [|c d IH]; cbn [sextets forallb]; [done|].
  destruct (sextet c) eqn:Hc.
  - rewrite bool_decide_true by eauto. cbn [andb]. rewrite <- IH.
    destruct (sextets d); done.
  - rewrite bool_decide_false by (intros [? ?]; done). done.
Qed.

Lemma bytes_of_sextets_bytes vs :
  Forall is_sextet vs -> Forall is_byte (bytes_of_sextets vs).
Proof.
  induction vs as [| a | a b | a b c | a b c d l IH] using list_ind4;
    intros H; cbn; rewrite ?Forall_cons in H; destruct_and?;
    unfold is_sextet, is_byte in *.
  - constructor.
  - constructor.
  - repeat constructor; euclid.
  - repeat constructor; euclid.
  - repeat (constructor; [euclid|]). by apply IH.
Qed.

Lemma atob_bytes s b : atob s = Returned b -> Forall is_byte b.
Proof.
  unfold atob. intros H.
  destruct (_ =? 1); [done|].
  destruct (sextets _) eqn:Hs; [|done]. simplify_eq.
  eauto using bytes_of_sextets_bytes, sextets_range.
Qed.

(** The copy loop reproduces a binary string whose code units are
    bytes. *)
Lemma copy_loop_bytes (b : list Z) :
  Forall is_byte b -> copy_loop b (Uint8Array_new (length b)) = b.
Proof.
  intros Hb. unfold copy_loop, Uint8Array_set.
  rewrite (foldl_insert_seq (fun i => charCodeAt b i mod 256)).
  2:{ unfold Uint8Array_new. by rewrite length_replicate. }
  rewrite drop_ge by (unfold Uint8Array_new; by rewrite length_replicate).
  rewrite app_nil_r.
  etrans; [|apply (fmap_lookup_seq b 0)].
  apply list_fmap_ext. intros i x Hi. unfold charCodeAt.
  destruct (b !! x) as [y|] eqn:Hy; cbn; [|done].
  apply (proj1 (Forall_lookup _ _) Hb) in Hy. unfold is_byte in Hy.
  apply Z.mod_small. lia.
Qed.

Lemma decodeBase64_atob s :
  decodeBase64 s = Returned (match atob s with Returned b => b | Thrown _ => [] end).
Proof.
  unfold decodeBase64. destruct (atob s) as [b|e] eqn:Ha; cbn; [|done].
  f_equal. apply copy_loop_bytes. eauto using atob_bytes.
Qed.

Lemma atob_rejects_Thrown s :
  atob_rejects s = true -> atob s = Thrown InvalidCharacterError.
Proof.
  unfold atob_rejects, atob. cbv zeta. intros H.
  destruct (_ =? 1); [done|]. cbn in H.
  apply negb_true_iff, sextets_None_iff in H. by rewrite H.
Qed.

(** *** Decoding a standard encoding *)

Lemma sextet_alphabet_char v : is_sextet v -> sextet (alphabet_char v) = Some v.
Proof.
  unfold is_sextet, alphabet_char. intros Hv.
  destruct (v <? 26) eqn:?;
    [|destruct (v <? 52) eqn:?;
      [|destruct (v <? 62) eqn:?; [|destruct (v =? 62) eqn:?]]];
    unfold sextet;
    repeat match goal with
           | |- context [if ?b then _ else _] => destruct b eqn:?
           end; try (f_equal; lia); lia.
Qed.

Lemma alphabet_char_plain v :
  is_sextet v ->
  is_ascii_whitespace (alphabet_char v) = false /\ alphabet_char v <> 61.
Proof.
  unfold is_sextet, is_ascii_whitespace, alphabet_char. intros Hv.
  repeat match goal with
         | |- context [if ?b then _ else _] => destruct b eqn:?
         end; lia.
Qed.

Lemma sextets_alphabet vs :
  Forall is_sextet vs -> sextets (alphabet_char <$> vs) = Some vs.
Proof.
  induction 1 as [|v vs Hv _ IH]; cbn; [done|].
  change (sextets (alphabet_char <$> vs) = Some vs) in IH.
  by rewrite sextet_alphabet_char, IH.
Qed.

Lemma filter_keeps_all (P : Z -> bool) (l : list Z) :
  Forall (fun c => P c = false) l -> filter (fun c => P c = false) l = l.
Proof.
  induction 1 as [|c l Hc _ IH]; [done|].
  rewrite filter_cons_True by done. by rewrite IH.
Qed.

Lemma drop_last_snoc (l : list Z) x : drop_last (l ++ [x]) = l.
Proof.
  unfold drop_last. rewrite length_app. cbn.
  replace (length l + 1 - 1)%nat with (length l) by lia. apply take_app_length.
Qed.

Lemma ends_with_pad_snoc (l : list Z) : ends_with_pad (l ++ [61]) = true.
Proof. unfold ends_with_pad. by rewrite last_snoc. Qed.

Lemma ends_with_pad_plain (l : list Z) :
  Forall (fun c => c <> 61) l -> ends_with_pad l = false.
Proof.
  intros Hl. unfold ends_with_pad. destruct (last l) as [c|] eqn:Hc; [|done].
  apply last_Some in Hc as [l' ->].
  apply Forall_app in Hl as [_ Hl]. apply Forall_cons in Hl as [Hl _]. lia.
Qed.

Lemma strip_padding_encoded (vs pad : list Z) :
  Forall is_sextet vs -> padding_after (length vs) pad ->
  strip_padding ((alphabet_char <$> vs) ++ pad) = alphabet_char <$> vs.
Proof.
  intros Hvs Hpad.
  assert (Hplain : ends_with_pad (alphabet_char <$> vs) = false).
  { apply ends_with_pad_plain, Forall_fmap. eapply Forall_impl; [done|].
    intros v Hv. by apply alphabet_char_plain. }
  unfold strip_padding.
  destruct Hpad as [[-> Hn]|[[-> Hn]|[-> Hn]]].
  - rewrite app_nil_r, length_fmap, Hn, Hplain. done.
  - rewrite length_app, length_fmap. cbn [length].
    replace (Z.of_nat (length vs + 1) mod 4 =? 0) with true
      by (symmetry; apply Z.eqb_eq; euclid).
    by rewrite ends_with_pad_snoc, drop_last_snoc, Hplain.
  - rewrite length_app, length_fmap. cbn [length].
    replace (Z.of_nat (length vs + 2) mod 4 =? 0) with true
      by (symmetry; apply Z.eqb_eq; euclid).
    change [61; 61] with ([61] ++ [61]). rewrite app_assoc.
    by rewrite ends_with_pad_snoc, drop_last_snoc, ends_with_pad_snoc, drop_last_snoc.
Qed.

Lemma rfc4648_encode_shape (bs : list Z) :
  Forall is_byte bs ->
  exists vs pad,
    rfc4648_encode bs = (alphabet_char <$> vs) ++ pad
    /\ Forall is_sextet vs /\ bytes_of_sextets vs = bs
    /\ padding_after (length vs) pad.
Proof.
  induction bs as [| a | a b | a b c l IH] using list_ind3;
    intros H; rewrite ?Forall_cons in H; destruct_and?; unfold is_byte in *.
  - exists [], []. repeat split; [constructor|]. by left.
  - exists [a / 4; (a mod 4) * 16], [61; 61].
    split; [done|]. split; [repeat constructor; euclid|].
    split; [cbn; f_equal; euclid|]. right; right. done.
  - exists [a / 4; (a mod 4) * 16 + b / 16; (b mod 16) * 4], [61].
    split; [done|]. split; [repeat constructor; euclid|].
    split; [cbn; repeat f_equal; euclid|]. right; left. done.
  - destruct IH as (vs & pad & Henc & Hvs & Hdec & Hpad); [done|].
    exists (a / 4 :: (a mod 4) * 16 + b / 16 :: (b mod 16) * 4 + c / 64 :: c mod 64 :: vs), pad.
    split; [cbn [rfc4648_encode]; rewrite Henc; done|].
    split; [repeat (constructor; [unfold is_sextet; euclid|]); done|].
    split; [cbn [bytes_of_sextets]; rewrite Hdec; repeat f_equal; euclid|].
    unfold padding_after in *. cbn [length].
    destruct Hpad as [[-> Hn]|[[-> Hn]|[-> Hn]]];
      [left|right; left|right; right]; (split; [done|euclid]).
Qed.

Lemma atob_rfc4648_encode (bs : list Z) :
  Forall is_byte bs -> atob (rfc4648_encode bs) = Returned bs.
Proof.
  intros Hbs.
  destruct (rfc4648_encode_shape bs Hbs) as (vs & pad & -> & Hvs & Hdec & Hpad).
  unfold atob. rewrite filter_keeps_all.
  2:{ apply Forall_app. split.
      - apply Forall_fmap. eapply Forall_impl; [done|].
        intros v Hv. by apply alphabet_char_plain.
      - destruct Hpad as [[-> _]|[[-> _]|[-> _]]]; repeat constructor. }
  cbv zeta. rewrite strip_padding_encoded by done.
  rewrite length_fmap.
  replace (Z.of_nat (length vs) mod 4 =? 1) with false.
  2:{ symmetry. apply Z.eqb_neq. destruct Hpad as [[_ Hn]|[[_ Hn]|[_ Hn]]]; lia. }
  by rewrite sextets_alphabet, Hdec.
Qed.




End Base64Properties.

(** ** The PCM decoder *)

Section PCMProperties.
Import PCM.
Import Base64 (is_byte).

Lemma int16_le_range lo hi : is_byte lo -> is_byte hi -> is_int16 (int16_le lo hi).
Proof.
  unfold is_byte, is_int16, int16_le. intros Hlo Hhi. cbv zeta.
  destruct (Z.ltb_spec (lo + 256 * hi) 32768); lia.
Qed.

Lemma Int16Array_view_length (bytes : list Z) (len : nat) :
  (2 * len <= length bytes)%nat -> length (Int16Array_view bytes len) = len.
Proof.
  revert bytes. induction len as [|len IH]; intros bytes Hlen; [done|].
  destruct bytes as [|lo [|hi rest]]; cbn in Hlen; try lia.
  cbn. rewrite IH; [done|lia].
Qed.

Lemma Int16Array_view_lookup (bytes : list Z) (len i : nat) lo hi :
  (i < len)%nat -> bytes !! (2 * i)%nat = Some lo -> bytes !! (2 * i + 1)%nat = Some hi ->
  Int16Array_view bytes len !! i = Some (int16_le lo hi).
Proof.
  revert bytes i. induction len as [|len IH]; intros bytes i Hi Hlo Hhi; [lia|].
  destruct bytes as [|b0 [|b1 rest]]; [done| |].
  { apply lookup_lt_Some in Hhi. cbn in Hhi. lia. }
  destruct i as [|i].
  - cbn in *. by simplify_eq.
  - replace (2 * S i)%nat with (S (S (2 * i))) in Hlo by lia.
    replace (2 * S i + 1)%nat with (S (S (2 * i + 1))) in Hhi by lia.
    cbn in *. apply IH; [lia|done..].
Qed.

Lemma Int16Array_view_range (bytes : list Z) (len : nat) :
  Forall is_byte bytes -> Forall is_int16 (Int16Array_view bytes len).
Proof.
  revert bytes. induction len as [|len IH]; intros bytes Hb; [constructor|].
  destruct bytes as [|lo [|hi rest]]; try constructor.
  - apply Forall_cons in Hb as [Hlo Hb]. apply Forall_cons in Hb as [Hhi Hb].
    by apply int16_le_range.
  - apply IH. apply Forall_cons in Hb as [_ Hb]. by apply Forall_cons in Hb as [_ Hb].
Qed.

Lemma Qfloor_mono_frames (n : Z) :
  Qfloor (inject_Z n / inject_Z (Z.of_nat 1)) = n.
Proof. unfold Qfloor. cbn. rewrite Z.mul_1_r. apply Z.div_1_r. Qed.

Lemma Qceiling_mono_frames (n : Z) :
  Qceiling (inject_Z n / inject_Z (Z.of_nat 1)) = n.
Proof.
  unfold Qceiling, Qfloor. cbn. rewrite Z.mul_1_r, Z.div_1_r. lia.
Qed.

(** Writes through [getChannelData(0)] of a one-channel buffer are
    writes into its only channel. *)
Lemma mono_channel_loop (g : nat -> float) c n r (l0 : list float) (idx : list nat) :
  foldl (fun buffer i => set_sample buffer 0 i (g i)) (mkAudioBuffer c n r [l0]) idx
  = mkAudioBuffer c n r [foldl (fun l i => <[i := g i]> l) l0 idx].
Proof.
  revert l0. induction idx as [|i idx IH]; intros l0; [done|].
  cbn [foldl]. unfold set_sample at 2. cbn. apply IH.
Qed.

Lemma scaled_in_unit_range (dataInt16 : list Z) (i : nat) :
  Forall is_int16 dataInt16 -> (i < length dataInt16)%nat ->
  in_unit_range (scaled dataInt16 i).
Proof.
  intros Hr Hi. unfold scaled.
  destruct (lookup_lt_is_Some_2 dataInt16 i Hi) as [z Hz]. rewrite Hz.
  apply (proj1 (Forall_lookup _ _) Hr) in Hz. unfold is_int16 in Hz.
  unfold in_unit_range, Qle. cbn. lia.
Qed.

(** The result of decoding a non-empty mono buffer of whole samples. *)
Lemma decodeAudioData_mono (data : list Z) (rate : Z) (m : nat) :
  length data = (2 * m)%nat -> (0 < m)%nat -> 8000 <= rate <= 96000 ->
  decodeAudioData data rate 1
  = Returned (mkAudioBuffer 1 m rate
                [(fun i => scaled (Int16Array_view data m) i) <$> seq 0 m]).
Proof.
  intros Hlen Hm Hrate. unfold decodeAudioData.
  replace (length data / 2)%nat with m
    by (rewrite Hlen, Nat.mul_comm, Nat.div_mul; lia).
  cbv zeta. rewrite Int16Array_view_length by lia.
  unfold createBuffer, iterations.
  rewrite Qfloor_mono_frames, Qceiling_mono_frames, Nat2Z.id.
  rewrite !bool_decide_false by lia.
  replace (rate <? 8000) with false by (symmetry; apply Z.ltb_ge; lia).
  replace (96000 <? rate) with false by (symmetry; apply Z.ltb_ge; lia).
  cbn [orb mbind outcome_bind bind_outcome seq foldl replicate].
  rewrite (mono_channel_loop (fun i => scaled (Int16Array_view data m) (i * 1 + 0))).
  rewrite foldl_insert_seq by (by rewrite length_replicate).
  rewrite drop_ge, app_nil_r by (by rewrite length_replicate).
  do 3 f_equal. apply list_fmap_ext. intros _ i _. f_equal. lia.
Qed.

(** C3, as the code behaves: for every non-empty byte buffer of even
    length holding mono 16-bit little-endian PCM, [decodeAudioData]
    returns a one-channel buffer of exactly [byteLength / 2] frames; the
    sample at frame [i] is the [i]-th signed 16-bit integer divided by
    32768, and every sample lies in [-1, 1]. *)
Theorem decodeAudioData_mono_samples (data : list Z) (rate : Z) :
  Forall is_byte data -> data <> [] -> Nat.Even (length data) ->
  8000 <= rate <= 96000 ->
  exists samples,
    decodeAudioData data rate 1
    = Returned (mkAudioBuffer 1 (length data / 2) rate [samples])
    /\ length samples = (length data / 2)%nat
    /\ (forall i lo hi,
          data !! (2 * i)%nat = Some lo -> data !! (2 * i + 1)%nat = Some hi ->
          exists q, samples !! i = Some (Num q)
                    /\ (q == inject_Z (int16_le lo hi) / 32768)%Q
                    /\ is_int16 (int16_le lo hi))
    /\ Forall in_unit_range samples.
Proof.
  intros Hb Hne [m Hm] Hrate.
  assert (Hpos : (0 < m)%nat) by (destruct data; [done|cbn in Hm; lia]).
  assert (Hdiv : (length data / 2)%nat = m)
    by (rewrite Hm, Nat.mul_comm, Nat.div_mul; lia).
  rewrite Hdiv. eexists. split; [by apply decodeAudioData_mono|].
  split; [by rewrite length_fmap, length_seq|]. split.
  - intros i lo hi Hlo Hhi.
    assert (Hi : (i < m)%nat) by (apply lookup_lt_Some in Hhi; lia).
    exists (Qmake (int16_le lo hi) 32768).
    rewrite list_lookup_fmap, lookup_seq_lt by done. cbn. unfold scaled.
    rewrite (Int16Array_view_lookup data m i lo hi) by done.
    split; [done|]. split.
    + unfold Qeq. cbn. lia.
    + pose proof (proj1 (Forall_lookup _ _) Hb _ _ Hlo).
      pose proof (proj1 (Forall_lookup _ _) Hb _ _ Hhi).
      by apply int16_le_range.
  - apply Forall_fmap, Forall_forall. intros i Hi.
    apply elem_of_seq in Hi. cbn.
    apply scaled_in_unit_range; [by apply Int16Array_view_range|].
    rewrite Int16Array_view_length; lia.
Qed.

Lemma decodeAudioData_mono_samples_witness :
  exists samples,
    decodeAudioData [0; 128; 255; 127] 24000 1
    = Returned (mkAudioBuffer 1 2 24000 [samples])
    /\ length samples = 2%nat
    /\ (forall i lo hi,
          [0; 128; 255; 127] !! (2 * i)%nat = Some lo ->
          [0; 128; 255; 127] !! (2 * i + 1)%nat = Some hi ->
          exists q, samples !! i = Some (Num q)
                    /\ (q == inject_Z (int16_le lo hi) / 32768)%Q
                    /\ is_int16 (int16_le lo hi))
    /\ Forall in_unit_range samples.
Proof.
  apply (decodeAudioData_mono_samples [0; 128; 255; 127] 24000).
  - repeat constructor; unfold is_byte; lia.
  - discriminate.
  - exists 2%nat. reflexivity.
  - lia.
Defined.

(** C3 as stated fails on the empty buffer, whose length is even. *)
Lemma decodeAudioData_even_length_rejected :
  Nat.Even (length (@nil Z))
  /\ decodeAudioData [] 24000 1 = Thrown NotSupportedError.
Proof. split; [exists 0%nat; reflexivity | reflexivity]. Qed.

(** C5, as the code behaves: decoding an empty byte buffer asks the
    context for a buffer of zero frames, which [createBuffer] refuses;
    the call is rejected with NotSupportedError instead of returning a
    zero-frame buffer, whatever the sample rate and channel count.
    Inside [playTTS] that rejection reaches the catch block, and the call
    settles normally. *)
Theorem decodeAudioData_empty_rejected :
  (forall rate numChannels,
      decodeAudioData [] rate numChannels = Thrown NotSupportedError)
  /\ (forall msg ctx f w,
        Controller.playTTS_after_decode msg ctx (decodeAudioData [] 24000 1) f w
        = (Controller.catch_block msg w, Controller.SpeakSettled (Returned tt))).
Proof.
  assert (H : forall rate numChannels,
             decodeAudioData [] rate numChannels = Thrown NotSupportedError).
  { intros rate numChannels. unfold decodeAudioData, createBuffer. cbn.
    rewrite (bool_decide_true (Z.to_nat _ = 0%nat)).
    2:{ unfold Qfloor. cbn. rewrite Z.div_0_l; [done|lia]. }
    by rewrite !orb_true_r. }
  split; [exact H|]. intros msg ctx f w. by rewrite H.
Qed.

(** C5 as stated fails: no zero-frame buffer is returned. *)
Lemma decodeAudioData_empty_no_buffer :
  ~ exists buffer, decodeAudioData [] 24000 1 = Returned buffer /\ frames buffer = 0%nat.
Proof. intros (buffer & H & _). discriminate H. Qed.

End PCMProperties.

(** ** Option shuffling *)

Section ShuffleProperties.
Import Shuffle.
Context {T : Type}.

(** A draw in [0, 1) scaled by [i + 1] and rounded down is an index
    between 0 and [i]. *)
Lemma random_index_le (r : Q) (i : nat) :
  (0 <= r)%Q -> (r < 1)%Q -> (random_index r i <= i)%nat.
Proof.
  intros H0 H1. unfold random_index.
  set (n := Z.of_nat (i + 1)).
  assert (Hn : 0 < n) by (subst n; lia).
  assert (Hlt : (r * inject_Z n < inject_Z n)%Q).
  { rewrite <- (Qmult_1_l (inject_Z n)) at 2.
    apply Qmult_lt_compat_r; [|done]. change 0%Q with (inject_Z 0).
    by rewrite <- Zlt_Qlt. }
  pose proof (Qfloor_le (r * inject_Z n)) as Hfl.
  assert (Hfn : Qfloor (r * inject_Z n) < n).
  { rewrite Zlt_Qlt. eapply Qle_lt_trans; done. }
  subst n. lia.
Qed.

(** Exchanging two elements of an array permutes it. *)
Lemma swap_Permutation (a : list T) (i j : nat) :
  (i < length a)%nat -> (j < length a)%nat ->
  exists a', swap a i j = Some a' /\ a' ≡ₚ a /\ length a' = length a.
Proof.
  intros Hi Hj. unfold swap.
  destruct (lookup_lt_is_Some_2 a i Hi) as [y Hy].
  destruct (lookup_lt_is_Some_2 a j Hj) as [x Hx].
  rewrite Hx, Hy. cbn. eexists. split; [done|].
  assert (Hlen : length (<[j:=y]> (<[i:=x]> a)) = length a)
    by (by rewrite !length_insert).
  split; [|done]. apply Permutation_inj. split; [done|].
  exists (fun k => if decide (k = j) then i else if decide (k = i) then j else k).
  split.
  - intros k1 k2. repeat case_decide; intros; subst; congruence.
  - intros k. repeat case_decide; subst.
    + rewrite list_lookup_insert_eq by (by rewrite length_insert). done.
    + rewrite list_lookup_insert_ne by done.
      rewrite list_lookup_insert_eq by done. done.
    + by rewrite !list_lookup_insert_ne by done.
Qed.

Lemma fisher_yates_Permutation (random : nat -> Q) (calls i : nat) (a : list T) :
  unit_interval random -> (i < length a)%nat ->
  exists a', fisher_yates random calls i a = Some a' /\ a' ≡ₚ a /\ length a' = length a.
Proof.
  intros Hr. revert calls a. induction i as [|i IH]; intros calls a Hi.
  - exists a. done.
  - cbn [fisher_yates].
    destruct (Hr calls) as [H0 H1].
    pose proof (random_index_le (random calls) (S i) H0 H1) as Hj.
    destruct (swap_Permutation a (S i) (random_index (random calls) (S i)))
      as (a1 & -> & Hp1 & Hl1); [lia..|].
    cbn. destruct (IH (S calls) a1) as (a2 & -> & Hp2 & Hl2); [lia|].
    exists a2. split; [done|]. split; [by rewrite Hp2|lia].
Qed.

(** C10.  Whatever [Math.random] returns, [shuffleArray] returns a new
    array that is a permutation of its input, of the same length, and the
    input array, like every other array of the store, is left as it
    was. *)
Theorem shuffleArray_permutes_copy
    (random : nat -> Q) (h : gmap nat (list T)) (array : nat) (elems : list T) :
  unit_interval random -> h !! array = Some elems ->
  exists h' shuffled result,
    shuffleArray random h array = Some (h', shuffled)
    /\ shuffled <> array /\ h !! shuffled = None
    /\ h' !! shuffled = Some result
    /\ result ≡ₚ elems /\ length result = length elems
    /\ h' !! array = Some elems
    /\ (forall l, l <> shuffled -> h' !! l = h !! l).
Proof.
  intros Hr Ha. unfold shuffleArray. rewrite Ha. cbn.
  assert (Hfresh : h !! fresh (dom h) = None).
  { apply not_elem_of_dom, is_fresh. }
  assert (Hne : fresh (dom h) <> array) by congruence.
  destruct elems as [|x elems].
  - cbn. eexists _, _, _. split; [done|].
    rewrite lookup_insert_eq. repeat split; try done.
    + by rewrite !lookup_insert_ne.
    + intros l Hl. by rewrite !lookup_insert_ne.
  - destruct (fisher_yates_Permutation random 0 (length (x :: elems) - 1) (x :: elems))
      as (a' & -> & Hp & Hl); [done|cbn; lia|].
    cbn. eexists _, _, _. split; [done|].
    rewrite lookup_insert_eq. repeat split; try done.
    + by rewrite !lookup_insert_ne.
    + intros l Hl'. by rewrite !lookup_insert_ne.
Qed.

End ShuffleProperties.

Lemma shuffleArray_permutes_copy_witness :
  exists h' shuffled result,
    Shuffle.shuffleArray (fun k => Qmake 1 2) {[ 7%nat := [10; 20; 30; 40] ]} 7%nat
    = Some (h', shuffled)
    /\ shuffled <> 7%nat
    /\ ({[ 7%nat := [10; 20; 30; 40] ]} : gmap nat (list Z)) !! shuffled = None
    /\ h' !! shuffled = Some result
    /\ result ≡ₚ [10; 20; 30; 40] /\ length result = length [10; 20; 30; 40]
    /\ h' !! 7%nat = Some [10; 20; 30; 40]
    /\ (forall l, l <> shuffled ->
        h' !! l = ({[ 7%nat := [10; 20; 30; 40] ]} : gmap nat (list Z)) !! l).
Proof.
  apply (shuffleArray_permutes_copy (fun k => Qmake 1 2)).
  - intros k. split; [by unfold Qle | by unfold Qlt].
  - reflexivity.
Defined.

(** ** Stopping the current source *)

Section StopProperties.
Import Controller.

Lemma stopCurrentAudio_returns (w : World) :
  exists w', stopCurrentAudio w = Returned w' /\ currentSourceRef w' = None.
Proof.
  unfold stopCurrentAudio. destruct (currentSourceRef w) as [s|] eqn:Hcur; [|eauto].
  destruct (source_stop s w); cbn; eauto.
Qed.

(** C7.  In every state [stopCurrentAudio] returns normally and leaves
    no tracked source; without a tracked source it changes nothing; with
    one, an error of [stop()] is swallowed and only the reference is
    cleared.  [stop()] does fail on a source that was never started and
    does nothing on one that already ended. *)
Theorem stopCurrentAudio_never_raises (w : World) :
  exists w',
    stopCurrentAudio w = Returned w'
    /\ currentSourceRef w' = None
    /\ (currentSourceRef w = None -> w' = w)
    /\ (forall s e, currentSourceRef w = Some s -> source_stop s w = Thrown e ->
         w' = set_currentSourceRef None w)
    /\ (forall s src, currentSourceRef w = Some s -> sources w !! s = Some src ->
         (src_status src = unstarted -> source_stop s w = Thrown InvalidStateError)
         /\ (src_status src = ended -> w' = set_currentSourceRef None w)
         /\ (src_status src = playing ->
             src_status <$> sources w' !! s = Some stopped)).
Proof.
  unfold stopCurrentAudio.
  destruct (currentSourceRef w) as [s|] eqn:Hcur.
  - destruct (source_stop s w) as [w1|e] eqn:Hstop; cbn.
    + exists (set_currentSourceRef None w1).
      split; [done|]. split; [done|]. split; [done|].
      split; [intros; congruence|].
      intros s' src Hs Hsrc. simplify_eq.
      unfold source_stop in Hstop. rewrite Hsrc in Hstop.
      split; [|split]; intros Hst; rewrite Hst in Hstop; simplify_eq; [done|].
      cbn. rewrite list_lookup_insert_eq by (by eapply lookup_lt_Some). done.
    + exists (set_currentSourceRef None w).
      split; [done|]. split; [done|]. split; [done|]. split; [done|].
      intros s' src Hs Hsrc. simplify_eq.
      unfold source_stop in *. rewrite Hsrc in *.
      split; [|split]; intros Hst; rewrite Hst in *; simplify_eq; done.
  - exists w. split; [done|]. split; [done|]. split; [done|].
    split; intros; congruence.
Qed.

Lemma stopCurrentAudio_never_raises_witness :
  let w := mkWorld Credential.NoProcess [] [mkSource 0 None false false unstarted] []
                   None (Some 0%nat) false None in
  source_stop 0 w = Thrown InvalidStateError
  /\ stopCurrentAudio w = Returned (set_currentSourceRef None w).
Proof.
  intros w.
  destruct (stopCurrentAudio_never_raises w) as (w' & Hret & _ & _ & Herr & Hsrc).
  destruct (Hsrc 0%nat (mkSource 0 None false false unstarted) eq_refl eq_refl)
    as (Hthrow & _ & _).
  split; [by apply Hthrow|].
  rewrite Hret. f_equal. eapply Herr; [reflexivity|]. by apply Hthrow.
Defined.

End StopProperties.

(** ** The audio session *)

Ltac unfold_M :=
  unfold Controller.playTTS_after_init, Controller.playTTS_after_generate,
    Controller.playTTS_after_decode, Controller.guarded, Controller.catch_block,
    Controller.request_body, Controller.respond_body, Controller.play_body,
    Controller.update_source, Controller.platform_call, Controller.throw,
    Controller.lift, Controller.modify, Controller.get, mbind, Controller.M_bind,
    mret, Controller.M_ret in *.

Section SessionProperties.
Import Controller.
Variable voice_unavailable : string.



















End SessionProperties.


(** ** Speaking *)

Section SpeakProperties.
Import Controller Credential.
Variable voice_unavailable : string.

(** What [try]/[catch] does with a part of the body that cannot itself
    hand back a rejected call. *)
Lemma guarded_contains (body : M speak_pc) (w : World) :
  (forall w1 p ex, body w = (w1, Returned p) -> p <> SpeakSettled (Thrown ex)) ->
  exists w' p,
    guarded voice_unavailable body w = (w', p)
    /\ (forall ex, p <> SpeakSettled (Thrown ex))
    /\ (forall w1 ex, body w = (w1, Thrown ex) ->
         p = SpeakSettled (Returned tt)
         /\ isLoadingAudio w' = false /\ apiError w' = Some voice_unavailable).
Proof.
  intros Hbody. unfold guarded. destruct (body w) as [w1 [p|ex]] eqn:Hb.
  - exists w1, p. split; [done|]. split; [eauto|]. intros; simplify_eq.
  - eexists _, _. split; [done|]. split; [done|]. intros; simplify_eq. done.
Qed.

Lemma request_body_pc text en ctx w w1 p ex :
  request_body text en ctx w = (w1, Returned p) -> p <> SpeakSettled (Thrown ex).
Proof. unfold_M. intros H. repeat case_match; simplify_eq; done. Qed.

Lemma respond_body_pc ctx r w w1 p ex :
  respond_body ctx r w = (w1, Returned p) -> p <> SpeakSettled (Thrown ex).
Proof. unfold_M. intros H. repeat case_match; simplify_eq; done. Qed.

Lemma play_body_pc ctx r f w w1 p ex :
  play_body ctx r f w = (w1, Returned p) -> p <> SpeakSettled (Thrown ex).
Proof.
  unfold_M. intros H. destruct f as [[?|] [?|] [?|]], r; cbn in *; simplify_eq; done.
Qed.

(** Only a rejection of [initAudio] makes a call of [playTTS] reject. *)
Lemma step_rejects_only_on_init σ e σ' t text en ex :
  step voice_unavailable σ e = Some σ' ->
  tasks σ' !! t = Some (SpeakTask text en (SpeakSettled (Thrown ex))) ->
  tasks σ !! t = Some (SpeakTask text en (SpeakSettled (Thrown ex)))
  \/ (e = InitReturned t
      /\ tasks σ !! t = Some (SpeakTask text en (AwaitInit (InitSettled (Thrown ex))))).
Proof.
  destruct σ as [w tks]. cbn [tasks]. intros Hstep Ht.
  destruct e; cbn in Hstep.
  - destruct (initAudio_begin ctor w) as [w1 p]. simplify_eq. cbn in Ht.
    apply lookup_app_Some in Ht as [Ht|[_ Ht]]; [by left|].
    destruct (t - length tks)%nat; done.
  - unfold playTTS_begin in Hstep.
    destruct (stopCurrentAudio_returns w) as (w0 & Hstop & _). rewrite Hstop in Hstep.
    destruct (initAudio_begin ctor w0) as [w1 p]. simplify_eq. cbn in Ht.
    apply lookup_app_Some in Ht as [Ht|[_ Ht]]; [by left|].
    destruct (t - length tks)%nat; done.
  - destruct (tks !! t0) as [[[c|]|text0 en0 [[c|]| | |]]|]; try done.
    all: destruct (initAudio_resumed c r w) as [w1 p]; simplify_eq; cbn in Ht.
    all: apply list_lookup_insert_Some in Ht as [(_ & Ht & _)|[_ Ht]];
      [done|by left].
  - destruct (tks !! t0) as [[|text0 en0 [[|[ctx|ex0]]| | |]]|] eqn:Htk; try done.
    + destruct (playTTS_after_init _ text0 en0 (Returned ctx) w) as [w1 p] eqn:Hb.
      simplify_eq. cbn in Ht.
      apply list_lookup_insert_Some in Ht as [(_ & Ht & _)|[_ Ht]]; [|by left].
      simplify_eq. unfold playTTS_after_init in Hb.
      destruct (guarded_contains (request_body text en ctx) (setIsLoadingAudio true w))
        as (w' & p & Hg & Hp & _); [by eauto using request_body_pc|].
      rewrite Hg in Hb. simplify_eq. by destruct (Hp ex).
    + cbn in Hstep. simplify_eq. cbn in Ht.
      apply list_lookup_insert_Some in Ht as [(-> & Ht & _)|[_ Ht]]; [|by left].
      simplify_eq. by right.
  - destruct (tks !! t0) as [[|text0 en0 [| ctx | |]]|]; try done.
    destruct (playTTS_after_generate _ ctx r w) as [w1 p] eqn:Hb.
    simplify_eq. cbn in Ht.
    apply list_lookup_insert_Some in Ht as [(_ & Ht & _)|[_ Ht]]; [|by left].
    simplify_eq. unfold playTTS_after_generate in Hb.
    destruct (guarded_contains (respond_body ctx r) w)
      as (w' & p & Hg & Hp & _); [by eauto using respond_body_pc|].
    rewrite Hg in Hb. simplify_eq. by destruct (Hp ex).
  - destruct (tks !! t0) as [[|text0 en0 [| | ctx r |]]|]; try done.
    destruct (playTTS_after_decode _ ctx r f w) as [w1 p] eqn:Hb.
    simplify_eq. cbn in Ht.
    apply list_lookup_insert_Some in Ht as [(_ & Ht & _)|[_ Ht]]; [|by left].
    simplify_eq. unfold playTTS_after_decode in Hb.
    destruct (guarded_contains (play_body ctx r f) w)
      as (w' & p & Hg & Hp & _); [by eauto using play_body_pc|].
    rewrite Hg in Hb. simplify_eq. by destruct (Hp ex).
  - destruct (source_ended s w); cbn in Hstep; simplify_eq. by left.
  - destruct (context_state c w) as [[]|]; simplify_eq. by left.
Qed.

(** [stopCurrentAudio] leaves the session, the loading indicator, the
    error message and the requests alone. *)
Lemma stopCurrentAudio_frame w w1 :
  stopCurrentAudio w = Returned w1 ->
  audioContextRef w1 = audioContextRef w /\ contexts w1 = contexts w
  /\ isLoadingAudio w1 = isLoadingAudio w /\ apiError w1 = apiError w
  /\ requests w1 = requests w.
Proof.
  unfold stopCurrentAudio, source_stop. intros H.
  repeat case_match; cbn in *; simplify_eq; done.
Qed.

Lemma lookup_snoc_length {A} (l : list A) (x : A) : (l ++ [x]) !! length l = Some x.
Proof. by rewrite lookup_app_r, Nat.sub_diag by lia. Qed.

Lemma insert_snoc_length {A} (l : list A) (x y : A) :
  <[length l := y]> (l ++ [x]) = l ++ [y].
Proof. by rewrite insert_app_r_alt, Nat.sub_diag by lia. Qed.

(** C1, as the code behaves.  The [try] block of [playTTS] starts after
    the session is acquired and the loading indicator is set.  Every
    exception raised from there on (reading or checking the key, the
    remote request, decoding, building the source, starting it) is
    caught: the call settles normally with the loading indicator false
    and the voice-unavailable message set.  Such exceptions do arise:
    a missing key, a rejected request, a rejected decode, a failing
    start.  A call is rejected only when [initAudio] was, and it is
    rejected whenever [initAudio] is: the continuation hands the
    exception on with the state untouched, so that a call whose
    [resume()] is rejected, or whose constructor throws, ends rejected
    with that exception, with the loading indicator and the error message
    as they were before the call and no request sent. *)
Theorem playTTS_catches_inside_try :
  (forall text en ctx w, exists w' p,
      playTTS_after_init voice_unavailable text en (Returned ctx) w = (w', p)
      /\ (forall ex, p <> SpeakSettled (Thrown ex))
      /\ (forall w1 ex,
            request_body text en ctx (setIsLoadingAudio true w) = (w1, Thrown ex) ->
            p = SpeakSettled (Returned tt)
            /\ isLoadingAudio w' = false /\ apiError w' = Some voice_unavailable))
  /\ (forall ctx r w, exists w' p,
      playTTS_after_generate voice_unavailable ctx r w = (w', p)
      /\ (forall ex, p <> SpeakSettled (Thrown ex))
      /\ (forall w1 ex, respond_body ctx r w = (w1, Thrown ex) ->
            p = SpeakSettled (Returned tt)
            /\ isLoadingAudio w' = false /\ apiError w' = Some voice_unavailable))
  /\ (forall ctx r f w, exists w' p,
      playTTS_after_decode voice_unavailable ctx r f w = (w', p)
      /\ (forall ex, p <> SpeakSettled (Thrown ex))
      /\ (forall w1 ex, play_body ctx r f w = (w1, Thrown ex) ->
            p = SpeakSettled (Returned tt)
            /\ isLoadingAudio w' = false /\ apiError w' = Some voice_unavailable))
  /\ (forall text en ctx w,
        credential (env w) = None \/ credential (env w) = Some "undefined"%string ->
        exists ex, request_body text en ctx w = (w, Thrown ex))
  /\ (forall ctx ex w, respond_body ctx (Thrown ex) w = (w, Thrown ex))
  /\ (forall ctx ex f w, play_body ctx (Thrown ex) f w = (w, Thrown ex))
  /\ (forall ctx buffer ex w, exists w1,
        play_body ctx (Returned buffer) (mkFaults None None (Some ex)) w
        = (w1, Thrown ex))
  /\ (forall σ e σ' t text en ex,
        step voice_unavailable σ e = Some σ' ->
        tasks σ' !! t = Some (SpeakTask text en (SpeakSettled (Thrown ex))) ->
        tasks σ !! t = Some (SpeakTask text en (SpeakSettled (Thrown ex)))
        \/ (e = InitReturned t
            /\ tasks σ !! t
               = Some (SpeakTask text en (AwaitInit (InitSettled (Thrown ex))))))
  /\ (forall text en ex w,
        playTTS_after_init voice_unavailable text en (Thrown ex) w
        = (w, SpeakSettled (Thrown ex)))
  /\ (forall σ text en ctor c ex,
        audioContextRef (world σ) = Some c ->
        context_state c (world σ) = Some suspended ->
        exists w1,
          stopCurrentAudio (world σ) = Returned w1
          /\ run voice_unavailable σ
               [CallPlayTTS text en ctor;
                ResumeSettled (length (tasks σ)) (Thrown ex);
                InitReturned (length (tasks σ))]
             = Some (mkSystem w1
                       (tasks σ ++ [SpeakTask text en (SpeakSettled (Thrown ex))]))
          /\ isLoadingAudio w1 = isLoadingAudio (world σ)
          /\ apiError w1 = apiError (world σ)
          /\ requests w1 = requests (world σ))
  /\ (forall σ text en ex,
        audioContextRef (world σ) = None ->
        exists w1,
          stopCurrentAudio (world σ) = Returned w1
          /\ run voice_unavailable σ
               [CallPlayTTS text en (Thrown ex); InitReturned (length (tasks σ))]
             = Some (mkSystem w1
                       (tasks σ ++ [SpeakTask text en (SpeakSettled (Thrown ex))]))
          /\ isLoadingAudio w1 = isLoadingAudio (world σ)
          /\ apiError w1 = apiError (world σ)
          /\ requests w1 = requests (world σ)).
Proof.
  split; [|split; [|split; [|split; [|split; [|split; [|split; [|split;
    [|split; [|split]]]]]]]]].
  - intros text en ctx w. unfold playTTS_after_init.
    apply guarded_contains. eauto using request_body_pc.
  - intros ctx r w. unfold playTTS_after_generate.
    apply guarded_contains. eauto using respond_body_pc.
  - intros ctx r f w. unfold playTTS_after_decode.
    apply guarded_contains. eauto using play_body_pc.
  - intros text en ctx w Hc. unfold_M.
    destruct (env w) as [|[k|]]; cbn in *.
    + eauto.
    + destruct Hc as [Hc|Hc]; simplify_eq. cbn. eauto.
    + eauto.
  - done.
  - done.
  - intros ctx buffer ex w. unfold_M. cbn. eauto.
  - apply step_rejects_only_on_init.
  - done.
  - intros [w tks] text en ctor c ex Href Hsusp. cbn [world tasks] in *.
    destruct (stopCurrentAudio_returns w) as (w1 & Hstop & _).
    destruct (stopCurrentAudio_frame _ _ Hstop) as (Href1 & Hctx1 & Hl & He & Hr).
    exists w1. split; [done|]. split; [|done].
    assert (Hbegin : playTTS_begin ctor w = (w1, AwaitInit (AwaitResume c))).
    { unfold playTTS_begin. rewrite Hstop. unfold initAudio_begin.
      rewrite Href1, Href. unfold context_state in *. rewrite Hctx1, Hsusp. done. }
    cbn [run step world tasks]. rewrite Hbegin. cbn [mbind option_bind].
    unfold spawn. cbn [world tasks fst snd].
    rewrite lookup_snoc_length. cbn [initAudio_resumed].
    unfold resume_task. cbn [world tasks fst snd mbind option_bind].
    rewrite insert_snoc_length, lookup_snoc_length. cbn [playTTS_after_init].
    cbn [world tasks fst snd]. by rewrite insert_snoc_length.
  - intros [w tks] text en ex Href. cbn [world tasks] in *.
    destruct (stopCurrentAudio_returns w) as (w1 & Hstop & _).
    destruct (stopCurrentAudio_frame _ _ Hstop) as (Href1 & Hctx1 & Hl & He & Hr).
    exists w1. split; [done|]. split; [|done].
    assert (Hbegin : playTTS_begin (Thrown ex) w = (w1, AwaitInit (InitSettled (Thrown ex)))).
    { unfold playTTS_begin. rewrite Hstop. unfold initAudio_begin.
      rewrite Href1, Href. done. }
    cbn [run step world tasks]. rewrite Hbegin. cbn [mbind option_bind].
    unfold spawn. cbn [world tasks fst snd].
    rewrite lookup_snoc_length. cbn [playTTS_after_init].
    unfold resume_task. cbn [world tasks fst snd mbind option_bind].
    by rewrite insert_snoc_length.
Qed.

End SpeakProperties.

Lemma playTTS_catches_inside_try_witness :
  let w := Controller.mkWorld Credential.NoProcess [] [] [] None None true None in
  let σ := Controller.mkSystem
             (Controller.mkWorld Credential.NoProcess
                [Controller.mkAudioContext 24000 Controller.suspended] [] []
                (Some 0%nat) None false None)
             [Controller.InitTask (Controller.InitSettled (Returned 0%nat))] in
  (exists w' p,
     Controller.playTTS_after_generate Controller.message_App 0 (Thrown RemoteError) w
     = (w', p)
     /\ p = Controller.SpeakSettled (Returned tt)
     /\ Controller.isLoadingAudio w' = false
     /\ Controller.apiError w' = Some Controller.message_App)
  /\ (exists w1,
        Controller.run Controller.message_App σ
          [Controller.CallPlayTTS "Hello" true (Returned Controller.running);
           Controller.ResumeSettled 1 (Thrown InvalidStateError);
           Controller.InitReturned 1]
        = Some (Controller.mkSystem w1
                  [Controller.InitTask (Controller.InitSettled (Returned 0%nat));
                   Controller.SpeakTask "Hello" true
                     (Controller.SpeakSettled (Thrown InvalidStateError))])
        /\ Controller.isLoadingAudio w1 = false
        /\ Controller.apiError w1 = None).
Proof.
  intros w σ.
  destruct (playTTS_catches_inside_try Controller.message_App)
    as (_ & Hgen & _ & _ & Hthrown & _ & _ & _ & _ & Hresume & _).
  split.
  - destruct (Hgen 0%nat (Thrown RemoteError) w) as (w' & p & Heq & _ & Hcatch).
    exists w', p. split; [exact Heq|].
    apply (Hcatch w RemoteError). apply Hthrown.
  - destruct (Hresume σ "Hello"%string true (Returned Controller.running) 0%nat
                InvalidStateError eq_refl eq_refl)
      as (w1 & _ & Hrun & Hl & He & _).
    exists w1. split; [exact Hrun|]. split; [exact Hl|exact He].
Defined.

(** C1 as stated fails for the session acquisition.  [startGame] has
    constructed the context; the browser suspends it; the next call of
    [playTTS] awaits [resume()], which the platform rejects.  The call is
    rejected with that exception, the loading indicator was never set and
    no error message is set. *)
Lemma playTTS_session_failure_propagates :
  Controller.run Controller.message_App
    (Controller.mounted (Credential.ProcessEnv (Some "0123456789abcdef"%string)) None)
    [Controller.CallInitAudio (Returned Controller.running);
     Controller.ContextSuspended 0;
     Controller.CallPlayTTS "Hello" true (Returned Controller.running);
     Controller.ResumeSettled 1 (Thrown InvalidStateError);
     Controller.InitReturned 1]
  = Some (Controller.mkSystem
            (Controller.mkWorld (Credential.ProcessEnv (Some "0123456789abcdef"%string))
               [Controller.mkAudioContext 24000 Controller.suspended] [] []
               (Some 0%nat) None false None)
            [Controller.InitTask (Controller.InitSettled (Returned 0%nat));
             Controller.SpeakTask "Hello" true
               (Controller.SpeakSettled (Thrown InvalidStateError))]).
Proof. reflexivity. Qed.

(** ** Two defects of [playTTS] *)

Section SpeakDefects.
Import Controller Credential.
Variable voice_unavailable : string.

(** C2 on the code: a response without audio payload.  The branch
    [if (base64Audio)] has no [else]: the call settles normally, creates
    no source and sets no error, but nothing clears the loading
    indicator, which [playTTS] had set to true; it is still true when the
    call has settled. *)
Theorem playTTS_no_payload_keeps_loading :
  (forall ctx w,
      playTTS_after_generate voice_unavailable ctx (Returned None) w
      = (w, SpeakSettled (Returned tt))
      /\ playTTS_after_generate voice_unavailable ctx (Returned (Some [])) w
         = (w, SpeakSettled (Returned tt)))
  /\ (forall text en key,
        key <> ""%string -> key <> "undefined"%string ->
        run voice_unavailable (mounted (ProcessEnv (Some key)) None)
          [CallPlayTTS text en (Returned running); InitReturned 0;
           GenerateSettled 0 (Returned None)]
        = Some (mkSystem
                  (mkWorld (ProcessEnv (Some key)) [mkAudioContext 24000 running] []
                     [mkRequest ((if en then "Repeat clearly:" else "") +:+ " " +:+ text)
                                (if en then "Charon" else "Kore")]
                     (Some 0%nat) None true None)
                  [SpeakTask text en (SpeakSettled (Returned tt))])).
Proof.
  split; [done|].
  intros text en key Hne Hnu.
  cbn [run step mounted world tasks].
  unfold playTTS_begin. cbn.
  unfold playTTS_after_init, guarded, request_body. cbn.
  unfold mbind, M_bind. cbn.
  rewrite !bool_decide_false by done. cbn.
  reflexivity.
Qed.

(** C6 on the code.  [playTTS] does begin with [stopCurrentAudio], before
    any [await].  Yet when a second call begins while the request of the
    first is pending and both responses carry audio, each call starts its
    own source and neither stops the other: once both calls have settled
    two sources are playing.  Only the second is tracked, so the next
    [stopCurrentAudio] stops that one and the first plays on. *)
Theorem playTTS_overlap_two_active :
  (forall ctor w, exists w1,
      stopCurrentAudio w = Returned w1 /\ currentSourceRef w1 = None
      /\ playTTS_begin ctor w
         = (let '(w2, p) := initAudio_begin ctor w1 in (w2, AwaitInit p)))
  /\ (exists σ,
        run voice_unavailable
          (mounted (ProcessEnv (Some "0123456789abcdef"%string)) None)
          [CallPlayTTS "A" true (Returned running); InitReturned 0;
           CallPlayTTS "B" true (Returned running); InitReturned 1;
           GenerateSettled 0 (Returned (Some (units "AAA="))); DecodeReturned 0 no_faults;
           GenerateSettled 1 (Returned (Some (units "AAA="))); DecodeReturned 1 no_faults]
        = Some σ
        /\ tasks σ = [SpeakTask "A" true (SpeakSettled (Returned tt));
                      SpeakTask "B" true (SpeakSettled (Returned tt))]
        /\ active_sources (world σ) = [0%nat; 1%nat]
        /\ currentSourceRef (world σ) = Some 1%nat
        /\ exists w', stopCurrentAudio (world σ) = Returned w'
                      /\ active_sources w' = [0%nat]).
Proof.
  split.
  - intros ctor w. destruct (stopCurrentAudio_returns w) as (w1 & Hstop & Hcur).
    exists w1. split; [done|]. split; [done|].
    unfold playTTS_begin. by rewrite Hstop.
  - eexists. split; [vm_compute; reflexivity|].
    split; [reflexivity|]. split; [reflexivity|]. split; [reflexivity|].
    eexists. split; [vm_compute; reflexivity|]. reflexivity.
Qed.

End SpeakDefects.

Lemma playTTS_no_payload_keeps_loading_witness :
  Controller.isLoadingAudio <$> (Controller.world <$>
    Controller.run Controller.message_App
      (Controller.mounted (Credential.ProcessEnv (Some "0123456789abcdef"%string)) None)
      [Controller.CallPlayTTS "Hello" true (Returned Controller.running);
       Controller.InitReturned 0;
       Controller.GenerateSettled 0 (Returned None)]) = Some true.
Proof.
  destruct (playTTS_no_payload_keeps_loading Controller.message_App) as (_ & Hrun).
  rewrite (Hrun "Hello"%string true "0123456789abcdef"%string); [reflexivity|done..].
Defined.

(** * Further properties *)

(** ** The quiz *)

Section GameProperties.
Import Game.
Variable QUESTIONS : list Question.
Variable toLowerCase : string -> string.

Abbreviation handleOptionClick' := (handleOptionClick QUESTIONS toLowerCase).
Abbreviation offered' := (offered QUESTIONS).
Abbreviation perform' := (perform QUESTIONS toLowerCase).
Abbreviation play' := (play QUESTIONS toLowerCase).

Ltac solve_well_formed Hexp :=
  split; [cbn in *; lia|];
  split; [first [exact Hexp | split; first [done | by left | by right | intros [?|?]; done]]|];
  split; [first [done | intros; cbn in *; lia]|];
  split; [cbn in *; lia|];
  first [done | by left | right; cbn in *; lia].

Lemma perform_well_formed g a :
  offered' g a = true -> well_formed QUESTIONS g -> well_formed QUESTIONS (perform' g a).
Proof.
  unfold well_formed, explained.
  intros Hoff (Hatt & Hexp & Hhint & Hmis & Hidx). destruct a; cbn in *.
  - done.
  - apply andb_true_iff in Hoff as [_ Hidx']. apply bool_decide_eq_true in Hidx'.
    solve_well_formed Hexp.
  - unfold handleOptionClick, currentQuestion in *.
    destruct (showExplanation g) eqn:Hs; [by rewrite !andb_false_r in Hoff|].
    destruct (missionQuestions QUESTIONS g !! currentQuestionIndex g) as [q|] eqn:Hq;
      [|by rewrite !andb_false_r in Hoff].
    clear Hoff.
    repeat case_bool_decide; cbn; unfold missionQuestions in *; cbn;
      solve_well_formed Hexp.
  - clear Hoff. unfold nextQuestion.
    case_bool_decide as Hlast; cbn; unfold missionQuestions in *; cbn in *;
      solve_well_formed Hexp.
  - solve_well_formed Hexp.
Qed.

Lemma play_well_formed actions g g' :
  play' g actions = Some g' -> well_formed QUESTIONS g -> well_formed QUESTIONS g'.
Proof.
  revert g. induction actions as [|a actions IH]; intros g Hplay Hg; cbn in Hplay.
  - by simplify_eq.
  - unfold play_step in Hplay. destruct (offered' g a) eqn:Hoff; [|done].
    cbn in Hplay. eauto using perform_well_formed.
Qed.

(** X1.  In every state the player can reach, at most one failed attempt
    is recorded, the explanation is shown exactly when the feedback is
    "success" or "error", the active mission is one of the five, and the
    question index is 0 or points inside the questions of the mission. *)
Theorem playable_well_formed (g : GameState) :
  playable QUESTIONS toLowerCase g -> well_formed QUESTIONS g.
Proof.
  intros [actions Hplay]. eapply play_well_formed; [done|].
  unfold well_formed, explained. cbn.
  split; [lia|]. split; [split; [done|intros [?|?]; done]|].
  split; [done|]. split; [lia|]. by left.
Qed.

Lemma clicks_explained g opts :
  showExplanation g = true -> clicks QUESTIONS toLowerCase g opts = g.
Proof.
  intros Hs. induction opts as [|o opts IH]; [done|].
  cbn. unfold handleOptionClick. rewrite Hs. cbn. apply IH.
Qed.

Lemma click_cases o g :
  let g' := fst (handleOptionClick' o g) in
  activeMission g' = activeMission g
  /\ currentQuestionIndex g' = currentQuestionIndex g
  /\ ((score g' = score g /\ (showExplanation g = true -> g' = g))
      \/ (score g' = (score g + 1)%nat /\ showExplanation g' = true)).
Proof.
  cbv zeta. unfold handleOptionClick.
  destruct (showExplanation g) eqn:Hs; [|destruct (currentQuestion QUESTIONS g)];
    repeat case_bool_decide; cbn;
    (split; [done|]; split; [done|];
     first [left; split; [done|intros; done] | right; split; done]).
Qed.

(** X2.  However many options are clicked on one question, the score
    rises by at most one and the question stays the same; once the
    explanation is shown further clicks change nothing; and when there is
    a current question, two clicks always end with the explanation
    shown. *)
Theorem option_clicks_bounded (g : GameState) (opts : list string) :
  (score g <= score (clicks QUESTIONS toLowerCase g opts) <= score g + 1)%nat
  /\ activeMission (clicks QUESTIONS toLowerCase g opts) = activeMission g
  /\ currentQuestionIndex (clicks QUESTIONS toLowerCase g opts) = currentQuestionIndex g
  /\ (showExplanation g = true -> clicks QUESTIONS toLowerCase g opts = g)
  /\ (is_Some (currentQuestion QUESTIONS g) -> (2 <= length opts)%nat ->
      showExplanation (clicks QUESTIONS toLowerCase g opts) = true).
Proof.
  split; [|split; [|split; [|split]]].
  - revert g. induction opts as [|o opts IH]; intros g; [cbn; lia|].
    cbn [clicks foldl]. fold (clicks QUESTIONS toLowerCase (fst (handleOptionClick' o g)) opts).
    destruct (click_cases o g) as (_ & _ & [[Hsc _]|[Hsc Hs]]).
    + specialize (IH (fst (handleOptionClick' o g))). lia.
    + rewrite clicks_explained by done. lia.
  - revert g. induction opts as [|o opts IH]; intros g; [done|].
    cbn [clicks foldl]. fold (clicks QUESTIONS toLowerCase (fst (handleOptionClick' o g)) opts).
    rewrite IH. by destruct (click_cases o g) as (-> & _).
  - revert g. induction opts as [|o opts IH]; intros g; [done|].
    cbn [clicks foldl]. fold (clicks QUESTIONS toLowerCase (fst (handleOptionClick' o g)) opts).
    rewrite IH. by destruct (click_cases o g) as (_ & -> & _).
  - apply clicks_explained.
  - intros [q Hq] Hlen. destruct opts as [|o1 [|o2 opts]]; cbn in Hlen; try lia.
    cbn [clicks foldl].
    fold (clicks QUESTIONS toLowerCase
            (fst (handleOptionClick' o2 (fst (handleOptionClick' o1 g)))) opts).
    assert (Hs : showExplanation (fst (handleOptionClick' o2 (fst (handleOptionClick' o1 g))))
                 = true).
    { unfold handleOptionClick at 2.
      destruct (showExplanation g) eqn:Hs0; cbn.
      { unfold handleOptionClick. by rewrite Hs0. }
      rewrite Hq. repeat case_bool_decide; cbn; unfold handleOptionClick; cbn; try done.
      unfold currentQuestion, missionQuestions in *. cbn. rewrite Hq.
      repeat case_bool_decide; cbn; done. }
    by rewrite clicks_explained.
Qed.

Lemma answer_and_next (g : GameState) (q : Question) :
  gameStarted g = true -> isGameOver g = false -> showExplanation g = false ->
  currentQuestion QUESTIONS g = Some q -> q_correctAnswer q ∈ q_options q ->
  play' g [ClickOption (q_correctAnswer q); ClickNext]
  = Some (nextQuestion QUESTIONS (answered g q)).
Proof.
  intros Hst Hov Hs Hq Hin.
  assert (Hclick : play_step QUESTIONS toLowerCase g (ClickOption (q_correctAnswer q))
                   = Some (answered g q)).
  { unfold play_step. cbn [offered perform].
    rewrite Hq, Hst, Hov, Hs, (bool_decide_true _ Hin). cbn [andb negb].
    unfold handleOptionClick. rewrite Hs, Hq. by rewrite bool_decide_true. }
  assert (Hnext : play_step QUESTIONS toLowerCase (answered g q) ClickNext
                  = Some (nextQuestion QUESTIONS (answered g q))).
  { unfold play_step. cbn [offered perform]. unfold renders.
    assert (Hq' : currentQuestion QUESTIONS (answered g q) = Some q) by exact Hq.
    rewrite Hq'. cbn [answered gameStarted isGameOver showExplanation feedbackType].
    rewrite Hst, Hov. rewrite (bool_decide_true (is_Some _)) by eauto.
    by rewrite (bool_decide_false (fb_success = fb_none)). }
  cbn [play]. rewrite Hclick. cbn [mbind option_bind]. rewrite Hnext. done.
Qed.

(** A perfect run over the rest of a mission. *)
Lemma perfect_run_spec (n : nat) (g : GameState) :
  gameStarted g = true -> isGameOver g = false -> showExplanation g = false ->
  (currentQuestionIndex g + S n)%nat = length (missionQuestions QUESTIONS g) ->
  (forall i q, (currentQuestionIndex g <= i)%nat ->
               missionQuestions QUESTIONS g !! i = Some q ->
               q_correctAnswer q ∈ q_options q) ->
  exists g',
    perfect_run QUESTIONS toLowerCase g (S n) = Some g'
    /\ isGameOver g' = true
    /\ score g' = (score g + S n)%nat
    /\ activeMission g' = activeMission g
    /\ (currentQuestionIndex g' + 1)%nat = length (missionQuestions QUESTIONS g).
Proof.
  revert g. induction n as [|n IH]; intros g Hst Hov Hs Hlen Hopt.
  all: assert (Hlt : (currentQuestionIndex g < length (missionQuestions QUESTIONS g))%nat)
         by lia.
  all: destruct (lookup_lt_is_Some_2 _ _ Hlt) as [q Hq].
  all: pose proof (Hopt _ q (Nat.le_refl _) Hq) as Hin.
  all: change (perfect_run QUESTIONS toLowerCase g (S ?m))
         with (q ← currentQuestion QUESTIONS g;
               g1 ← play' g [ClickOption (q_correctAnswer q); ClickNext];
               perfect_run QUESTIONS toLowerCase g1 m).
  all: unfold currentQuestion at 1; rewrite Hq; cbn [mbind option_bind].
  all: rewrite (answer_and_next g q) by done; cbn [mbind option_bind].
  all: unfold nextQuestion.
  all: assert (Hmq : missionQuestions QUESTIONS (answered g q) = missionQuestions QUESTIONS g)
         by done.
  all: rewrite Hmq; cbn [answered currentQuestionIndex].
  - rewrite bool_decide_true by lia. eexists. split; [done|]. cbn.
    split; [done|]. split; [lia|]. split; [done|]. lia.
  - rewrite bool_decide_false by lia.
    edestruct IH as (g' & Hrun & Hover & Hscore & Hmis & Hidx); last first.
    { exists g'. split; [exact Hrun|]. cbn in *. split; [done|]. split; [lia|].
      split; [done|]. exact Hidx. }
    + intros i q' Hi. apply Hopt. cbn in Hi. lia.
    + cbn. unfold missionQuestions in *. cbn. lia.
    + done.
    + done.
    + done.
Qed.

(** X3.  Starting a mission of [n >= 1] questions whose correct answers
    are among their options, answering each question correctly and
    pressing "next" each time ends the game with exactly [n] points more
    than before, on the last question of the same mission. *)
Theorem perfect_run_scores_all (g : GameState) (n : nat) :
  gameStarted g = true -> isGameOver g = false -> showExplanation g = false ->
  currentQuestionIndex g = 0%nat ->
  length (missionQuestions QUESTIONS g) = S n ->
  Forall (fun q => q_correctAnswer q ∈ q_options q) (missionQuestions QUESTIONS g) ->
  exists g',
    perfect_run QUESTIONS toLowerCase g (S n) = Some g'
    /\ isGameOver g' = true
    /\ score g' = (score g + S n)%nat
    /\ activeMission g' = activeMission g
    /\ currentQuestionIndex g' = n.
Proof.
  intros Hst Hov Hs Hidx Hlen Hall.
  destruct (perfect_run_spec n g) as (g' & Hrun & Hover & Hscore & Hmis & Hlast);
    try done.
  - lia.
  - intros i q _ Hq. by apply (proj1 (Forall_lookup _ _) Hall i q).
  - exists g'. repeat split; try done. lia.
Qed.


End GameProperties.

Lemma playable_well_formed_witness :
  let qs := [Game.mkQuestion 1 "I ________ a boy." ["am"; "is"] "am" "I + am" "Yo soy un niño."] in
  Game.well_formed qs
    (Game.mkGameState true 1 0 "is" 1 0 Game.fb_hint "💡 Pista: I + am" false false).
Proof.
  intros qs.
  apply (playable_well_formed qs (fun s => s)).
  exists [Game.StartGame; Game.ClickOption "is"]. reflexivity.
Defined.

Lemma option_clicks_bounded_witness :
  let qs := [Game.mkQuestion 1 "I ________ a boy." ["am"; "is"] "am" "I + am" "Yo soy un niño."] in
  let g := Game.mkGameState true 1 0 "" 0 0 Game.fb_none "" false false in
  Game.showExplanation (Game.clicks qs (fun s => s) g ["is"; "is"; "am"]) = true
  /\ Game.score (Game.clicks qs (fun s => s) g ["is"; "is"; "am"]) = 0%nat.
Proof.
  intros qs g.
  destruct (option_clicks_bounded qs (fun s => s) g ["is"; "is"; "am"])
    as (_ & _ & _ & _ & Hshown).
  split; [apply Hshown; [by eexists | cbn; lia] | reflexivity].
Defined.

Lemma perfect_run_scores_all_witness :
  let qs := [Game.mkQuestion 1 "I ________ a boy." ["am"; "is"] "am" "I + am" "Yo soy un niño.";
             Game.mkQuestion 2 "________ you?" ["How"; "Who"] "Who" "" "";
             Game.mkQuestion 1 "She ________ tall." ["am"; "is"] "is" "" ""] in
  let g := Game.mkGameState true 1 0 "" 0 0 Game.fb_none "" false false in
  exists g',
    Game.perfect_run qs (fun s => s) g 2 = Some g'
    /\ Game.isGameOver g' = true
    /\ Game.score g' = (Game.score g + 2)%nat
    /\ Game.activeMission g' = Game.activeMission g
    /\ Game.currentQuestionIndex g' = 1%nat.
Proof.
  intros qs g.
  apply (perfect_run_scores_all qs (fun s => s) g 1); try reflexivity.
  repeat constructor; apply bool_decide_unpack; reflexivity.
Defined.


(** ** The PCM decoder with several channels *)

Section PCMChannels.
Import PCM.
Import Base64 (is_byte).

Lemma foldl_insert_out_of_range {A} (g : nat -> A) (l : list A) (idx : list nat) :
  Forall (fun i => (length l <= i)%nat) idx ->
  foldl (fun l i => <[i := g i]> l) l idx = l.
Proof.
  induction 1 as [|i idx Hi _ IH]; [done|].
  cbn. by rewrite list_insert_ge.
Qed.

(** A loop that may run past the end of the array: the writes past the
    end are lost. *)
Lemma foldl_insert_seq_any {A} (g : nat -> A) (l0 : list A) (k : nat) :
  (length l0 <= k)%nat ->
  foldl (fun l i => <[i := g i]> l) l0 (seq 0 k) = g <$> seq 0 (length l0).
Proof.
  intros Hk. replace k with (length l0 + (k - length l0))%nat by lia.
  rewrite seq_app, foldl_app, foldl_insert_seq by done.
  rewrite drop_all, app_nil_r.
  apply foldl_insert_out_of_range, Forall_forall. intros i Hi.
  apply elem_of_seq in Hi. rewrite length_fmap, length_seq. lia.
Qed.

Lemma channel_loop (g : nat -> float) (c : nat) (buffer : AudioBuffer) (idx : list nat) :
  foldl (fun b i => set_sample b c i (g i)) buffer idx
  = mkAudioBuffer (numberOfChannels buffer) (frames buffer) (sampleRate buffer)
      (alter (fun cd => foldl (fun l i => <[i := g i]> l) cd idx) c (channelData buffer)).
Proof.
  revert buffer. induction idx as [|i idx IH]; intros buffer; cbn [foldl].
  - destruct buffer. cbn. f_equal. symmetry. by apply list_alter_id.
  - rewrite IH. unfold set_sample. cbn. f_equal.
    by rewrite list_alter_alter_eq.
Qed.

Lemma decode_loops (nc F K : nat) (rate : Z) (v : nat -> nat -> float) :
  (F <= K)%nat ->
  foldl (fun buffer c => foldl (fun b i => set_sample b c i (v c i)) buffer (seq 0 K))
        (mkAudioBuffer nc F rate (replicate nc (replicate F (Num 0)))) (seq 0 nc)
  = mkAudioBuffer nc F rate ((fun c => v c <$> seq 0 F) <$> seq 0 nc).
Proof.
  intros HK.
  cut (forall k, (k <= nc)%nat ->
         foldl (fun buffer c => foldl (fun b i => set_sample b c i (v c i)) buffer (seq 0 K))
               (mkAudioBuffer nc F rate (replicate nc (replicate F (Num 0)))) (seq 0 k)
         = mkAudioBuffer nc F rate
             (((fun c => v c <$> seq 0 F) <$> seq 0 k)
              ++ replicate (nc - k) (replicate F (Num 0)))).
  { intros H. rewrite (H nc) by lia. by rewrite Nat.sub_diag, app_nil_r. }
  induction k as [|k IH]; intros Hk.
  - cbn. by rewrite Nat.sub_0_r.
  - rewrite seq_S, foldl_app, IH by lia. cbn [foldl Nat.add].
    rewrite channel_loop. cbn. f_equal.
    assert (Hlen : length ((fun c => v c <$> seq 0 F) <$> seq 0 k) = k)
      by (by rewrite length_fmap, length_seq).
    replace (nc - k)%nat with (S (nc - S k)) by lia. cbn [replicate].
    rewrite <- (Nat.add_0_r k) at 1. rewrite <- Hlen at 1.
    rewrite alter_app_r. cbn.
    rewrite foldl_insert_seq_any by (by rewrite length_replicate).
    rewrite length_replicate, fmap_app. cbn. by rewrite <- app_assoc.
Qed.

Lemma Qfloor_div (n d : Z) :
  0 < d -> Qfloor (inject_Z n / inject_Z d) = n / d.
Proof.
  intros Hd. destruct d as [|p|p]; try lia.
  unfold Qfloor. cbn. by rewrite Z.mul_1_r.
Qed.

Lemma frames_of_frameCount (n nc : nat) :
  (0 < nc)%nat ->
  Z.to_nat (Qfloor (inject_Z (Z.of_nat n) / inject_Z (Z.of_nat nc))) = (n / nc)%nat
  /\ (n / nc <= iterations (inject_Z (Z.of_nat n) / inject_Z (Z.of_nat nc)))%nat.
Proof.
  intros Hnc.
  assert (Hfl : Z.to_nat (Qfloor (inject_Z (Z.of_nat n) / inject_Z (Z.of_nat nc)))
                = (n / nc)%nat).
  { rewrite Qfloor_div by lia. rewrite <- Nat2Z.inj_div. apply Nat2Z.id. }
  split; [done|]. rewrite <- Hfl. unfold iterations.
  set (x := (inject_Z (Z.of_nat n) / inject_Z (Z.of_nat nc))%Q).
  assert (Hfc : Qfloor x <= Qceiling x) by (rewrite Zle_Qle; apply Qle_floor_ceiling).
  lia.
Qed.

(** The buffer [decodeAudioData] builds, in closed form. *)
Lemma decodeAudioData_closed_form (data : list Z) (rate : Z) (nc : nat) :
  (1 <= nc <= 32)%nat -> 8000 <= rate <= 96000 -> (nc <= length data / 2)%nat ->
  decodeAudioData data rate nc
  = Returned (mkAudioBuffer nc (length data / 2 / nc) rate
                ((fun c => (fun i => scaled (Int16Array_view data (length data / 2))
                                            (i * nc + c))
                           <$> seq 0 (length data / 2 / nc))
                 <$> seq 0 nc)).
Proof.
  intros Hnc Hrate Hn. unfold decodeAudioData. cbv zeta.
  assert (Hview : length (Int16Array_view data (length data / 2)) = (length data / 2)%nat).
  { apply Int16Array_view_length. pose proof (Nat.div_mod_eq (length data) 2). lia. }
  rewrite Hview.
  destruct (frames_of_frameCount (length data / 2) nc) as [Hfl HK]; [lia|].
  unfold createBuffer. rewrite Hfl.
  assert (HF : (1 <= length data / 2 / nc)%nat).
  { apply Nat.div_le_lower_bound; lia. }
  rewrite !bool_decide_false by lia.
  replace (rate <? 8000) with false by (symmetry; apply Z.ltb_ge; lia).
  replace (96000 <? rate) with false by (symmetry; apply Z.ltb_ge; lia).
  cbn [orb mbind outcome_bind bind_outcome]. f_equal.
  by apply (decode_loops nc _ _ rate
              (fun c i => scaled (Int16Array_view data (length data / 2)) (i * nc + c))).
Qed.

(** X5.  With [numChannels] channels (1 to 32) and at least one whole
    frame of data, [decodeAudioData] returns [numChannels] channels of
    [floor(samples / numChannels)] frames each, and frame [i] of channel
    [c] is the 16-bit sample number [i * numChannels + c] divided by
    32768: the interleaved input is split by channel. *)
Theorem decodeAudioData_deinterleaves (data : list Z) (rate : Z) (nc : nat) :
  (1 <= nc <= 32)%nat -> 8000 <= rate <= 96000 -> (nc <= length data / 2)%nat ->
  exists channels,
    decodeAudioData data rate nc
    = Returned (mkAudioBuffer nc (length data / 2 / nc) rate channels)
    /\ length channels = nc
    /\ forall c i lo hi,
         (c < nc)%nat -> (i < length data / 2 / nc)%nat ->
         data !! (2 * (i * nc + c))%nat = Some lo ->
         data !! (2 * (i * nc + c) + 1)%nat = Some hi ->
         exists cd, channels !! c = Some cd
                    /\ length cd = (length data / 2 / nc)%nat
                    /\ cd !! i = Some (Num (Qmake (int16_le lo hi) 32768)).
Proof.
  intros Hnc Hrate Hn. eexists. split; [by apply decodeAudioData_closed_form|].
  pose proof (Nat.div_mod_eq (length data) 2) as Hdm.
  pose proof (Nat.mod_upper_bound (length data) 2) as Hmod.
  remember (length data / 2)%nat as n eqn:Heqn. remember (n / nc)%nat as F eqn:HeqF.
  split; [by rewrite length_fmap, length_seq|].
  intros c i lo hi Hc Hi Hlo Hhi. eexists. split; [|split].
  - rewrite list_lookup_fmap, lookup_seq_lt by done. done.
  - by rewrite length_fmap, length_seq.
  - rewrite list_lookup_fmap, lookup_seq_lt by done. cbn. unfold scaled.
    rewrite (Int16Array_view_lookup data _ (i * nc + c) lo hi); [done| |done..].
    apply lookup_lt_Some in Hhi. lia.
Qed.

Lemma Int16Array_view_app (data extra : list Z) (len len' j : nat) :
  (j < len)%nat -> (len <= len')%nat -> (2 * len <= length data)%nat ->
  Int16Array_view (data ++ extra) len' !! j = Int16Array_view data len !! j.
Proof.
  intros Hj Hlen Hdata.
  destruct (lookup_lt_is_Some_2 data (2 * j)) as [lo Hlo]; [lia|].
  destruct (lookup_lt_is_Some_2 data (2 * j + 1)) as [hi Hhi]; [lia|].
  rewrite (Int16Array_view_lookup data len j lo hi) by done.
  apply Int16Array_view_lookup; [lia|by apply lookup_app_l_Some..].
Qed.

(** X6.  Bytes after the last whole frame do not change the result: a
    buffer of [F >= 1] whole frames followed by fewer bytes than one frame
    decodes to the same audio buffer as the whole frames alone. *)
Theorem decodeAudioData_drops_partial_frame
    (data extra : list Z) (rate : Z) (nc F : nat) :
  (1 <= nc <= 32)%nat -> 8000 <= rate <= 96000 -> (1 <= F)%nat ->
  length data = (2 * nc * F)%nat -> (length extra < 2 * nc)%nat ->
  decodeAudioData (data ++ extra) rate nc = decodeAudioData data rate nc.
Proof.
  intros Hnc Hrate HF Hdata Hextra.
  assert (Hn : (length data / 2 = nc * F)%nat).
  { rewrite Hdata. replace (2 * nc * F)%nat with (nc * F * 2)%nat by lia.
    by rewrite Nat.div_mul. }
  assert (Hn' : exists r, (length (data ++ extra) / 2 = nc * F + r)%nat /\ (r < nc)%nat).
  { exists (length extra / 2)%nat. rewrite length_app, Hdata.
    replace (2 * nc * F + length extra)%nat with (length extra + (nc * F) * 2)%nat by lia.
    rewrite Nat.div_add by lia. split; [lia|].
    apply Nat.Div0.div_lt_upper_bound. lia. }
  destruct Hn' as (r & Hn' & Hr).
  assert (HFd : forall m, (m < nc)%nat -> ((nc * F + m) / nc = F)%nat).
  { intros m Hm. rewrite (Nat.mul_comm nc F), Nat.add_comm, Nat.div_add by lia.
    rewrite Nat.div_small by done. done. }
  rewrite !decodeAudioData_closed_form; try done.
  2:{ rewrite Hn. nia. }
  2:{ rewrite Hn'. nia. }
  rewrite Hn, Hn', (HFd r Hr).
  replace (nc * F / nc)%nat with F by (rewrite <- (HFd 0%nat) at 1; [f_equal; lia|lia]).
  do 2 f_equal. apply list_fmap_ext. intros kc c Hc.
  apply lookup_seq in Hc as [Hkc Hc].
  apply list_fmap_ext. intros ki i Hi. apply lookup_seq in Hi as [Hki Hi].
  unfold scaled.
  rewrite (Int16Array_view_app data extra (nc * F) (nc * F + r)); [done| |lia|lia].
  nia.
Qed.

End PCMChannels.

Lemma decodeAudioData_deinterleaves_witness :
  exists channels,
    PCM.decodeAudioData [1; 0; 2; 0; 3; 0; 4; 0; 5; 0] 24000 2
    = Returned (PCM.mkAudioBuffer 2 (length [1; 0; 2; 0; 3; 0; 4; 0; 5; 0] / 2 / 2)
                  24000 channels)
    /\ length channels = 2%nat
    /\ forall c i lo hi,
         (c < 2)%nat -> (i < length [1; 0; 2; 0; 3; 0; 4; 0; 5; 0] / 2 / 2)%nat ->
         [1; 0; 2; 0; 3; 0; 4; 0; 5; 0] !! (2 * (i * 2 + c))%nat = Some lo ->
         [1; 0; 2; 0; 3; 0; 4; 0; 5; 0] !! (2 * (i * 2 + c) + 1)%nat = Some hi ->
         exists cd, channels !! c = Some cd
                    /\ length cd = (length [1; 0; 2; 0; 3; 0; 4; 0; 5; 0] / 2 / 2)%nat
                    /\ cd !! i = Some (PCM.Num (Qmake (PCM.int16_le lo hi) 32768)).
Proof.
  apply (decodeAudioData_deinterleaves [1; 0; 2; 0; 3; 0; 4; 0; 5; 0] 24000 2);
    [lia | lia | cbn; lia].
Defined.

Lemma decodeAudioData_drops_partial_frame_witness :
  PCM.decodeAudioData ([1; 0; 2; 0; 3; 0; 4; 0] ++ [5; 0; 9]) 24000 2
  = PCM.decodeAudioData [1; 0; 2; 0; 3; 0; 4; 0] 24000 2.
Proof.
  apply (decodeAudioData_drops_partial_frame _ _ 24000 2 2); cbn; lia.
Defined.

(** ** Size of the decoded payload *)

Section Base64Length.
Import Base64.

Lemma bytes_of_sextets_length (vs : list Z) :
  length (bytes_of_sextets vs) = (3 * length vs / 4)%nat.
Proof.
  induction vs as [| a | a b | a b c | a b c d l IH] using list_ind4; try reflexivity.
  cbn [bytes_of_sextets length]. rewrite IH.
  replace (3 * S (S (S (S (length l)))))%nat with (3 * length l + 3 * 4)%nat by lia.
  rewrite Nat.div_add by lia. lia.
Qed.

Lemma sextets_length (d vs : list Z) : sextets d = Some vs -> length vs = length d.
Proof.
  revert vs. induction d as [|c d IH]; intros vs H; cbn in H; [by simplify_eq|].
  destruct (sextet c); [|done]. destruct (sextets d) eqn:Hd; [|done].
  simplify_eq. cbn. f_equal. by apply IH.
Qed.

Lemma strip_padding_length (d : list Z) : (length (strip_padding d) <= length d)%nat.
Proof.
  unfold strip_padding, drop_last.
  repeat case_match; rewrite ?length_take; lia.
Qed.

(** X7.  [decodeBase64] returns [floor(3k/4)] bytes, where [k] is the
    number of characters left after white space and padding are removed
    (none when [atob] rejects the input); so the result is never longer
    than three quarters of the input. *)
Theorem decodeBase64_length (s : list Z) :
  exists bytes,
    decodeBase64 s = Returned bytes
    /\ (4 * length bytes <= 3 * length s)%nat
    /\ (atob_rejects s = true -> bytes = [])
    /\ (atob_rejects s = false ->
        length bytes
        = (3 * length (strip_padding (filter (fun c => is_ascii_whitespace c = false) s))
           / 4)%nat).
Proof.
  rewrite decodeBase64_atob.
  destruct (atob_rejects s) eqn:Hrej.
  - rewrite atob_rejects_Thrown by done. exists []. cbn.
    split; [done|]. split; [lia|]. done.
  - unfold atob_rejects in Hrej. unfold atob. cbv zeta in *.
    set (data := strip_padding (filter (fun c => is_ascii_whitespace c = false) s)) in *.
    apply orb_false_iff in Hrej as [Hmod Hall]. rewrite Hmod.
    apply negb_false_iff in Hall.
    destruct (sextets data) as [vs|] eqn:Hvs.
    2:{ apply sextets_None_iff in Hvs. congruence. }
    exists (bytes_of_sextets vs). split; [done|].
    rewrite bytes_of_sextets_length, (sextets_length _ _ Hvs).
    assert (Hlen : (length data <= length s)%nat).
    { subst data. etrans; [apply strip_padding_length|]. apply length_filter. }
    split; [|done].
    pose proof (Nat.div_mod_eq (3 * length data) 4). lia.
Qed.

End Base64Length.

Lemma decodeBase64_length_witness :
  exists bytes,
    Base64.decodeBase64 (units "TW E=") = Returned bytes /\ length bytes = 2%nat.
Proof.
  destruct (decodeBase64_length (units "TW E=")) as (bytes & Hdec & _ & _ & Hlen).
  exists bytes. split; [exact Hdec|]. rewrite Hlen; reflexivity.
Defined.

(** ** Speaking, from the payload to the sound *)

Section SpeakEndToEnd.
Import Controller Credential.
Variable voice_unavailable : string.

Lemma alter_snoc {A} (f : A -> A) (l : list A) (x : A) :
  alter f (length l) (l ++ [x]) = l ++ [f x].
Proof. rewrite <- (Nat.add_0_r (length l)). by rewrite alter_app_r. Qed.

(** The complete effect of the last part of [playTTS] when the platform
    calls succeed. *)
Lemma playTTS_after_decode_plays ctx buffer w :
  playTTS_after_decode voice_unavailable ctx (Returned buffer) no_faults w
  = (setApiError None
       (set_currentSourceRef (Some (length (sources w)))
          (set_sources (sources w ++ [mkSource ctx (Some buffer) true true playing]) w)),
     SpeakSettled (Returned tt)).
Proof.
  unfold_M. cbn. unfold set_sources, set_currentSourceRef, setApiError. cbn.
  by rewrite !alter_snoc.
Qed.

Lemma playTTS_after_generate_payload ctx c rest bytes w :
  Base64.decodeBase64 (c :: rest) = Returned bytes ->
  playTTS_after_generate voice_unavailable ctx (Returned (Some (c :: rest))) w
  = (w, AwaitDecode ctx (PCM.decodeAudioData bytes 24000 1)).
Proof.
  intros Hdec. unfold playTTS_after_generate, guarded, respond_body.
  unfold mbind at 1, M_bind, lift. cbn [fst snd].
  unfold mbind at 1, M_bind, lift. by rewrite Hdec.
Qed.

Lemma run_app tr1 tr2 σ0 σ1 :
  run voice_unavailable σ0 tr1 = Some σ1 ->
  run voice_unavailable σ0 (tr1 ++ tr2) = run voice_unavailable σ1 tr2.
Proof.
  revert σ0. induction tr1 as [|e tr1 IH]; intros σ0 H; cbn in *; [by simplify_eq|].
  destruct (step voice_unavailable σ0 e); cbn in *; [eauto|done].
Qed.

Lemma rfc4648_encode_cons (bs : list Z) :
  bs <> [] -> exists c rest, Base64.rfc4648_encode bs = c :: rest.
Proof. destruct bs as [|a [|b [|c l]]]; [done|cbn; eauto..]. Qed.

(** X8.  A call of [playTTS] with a usable key whose response carries
    the standard base64 encoding of a non-empty, even number of PCM bytes
    ends with exactly one new source: it holds the decoded mono buffer of
    [byteLength / 2] frames at 24000 Hz, is connected, playing and tracked
    as current; the error message is cleared and the loading indicator
    stays on until the source's ended event, which turns it off. *)
Theorem playTTS_plays_payload (text : string) (en : bool) (key : string)
    (err : option string) (bs : list Z) :
  key <> ""%string -> key <> "undefined"%string ->
  Forall Base64.is_byte bs -> bs <> [] -> Nat.Even (length bs) ->
  exists samples,
    PCM.decodeAudioData bs 24000 1
    = Returned (PCM.mkAudioBuffer 1 (length bs / 2) 24000 [samples])
    /\ run voice_unavailable (mounted (ProcessEnv (Some key)) err)
         [CallPlayTTS text en (Returned running); InitReturned 0;
          GenerateSettled 0 (Returned (Some (Base64.rfc4648_encode bs)));
          DecodeReturned 0 no_faults]
       = Some (mkSystem
                 (mkWorld (ProcessEnv (Some key)) [mkAudioContext 24000 running]
                    [mkSource 0 (Some (PCM.mkAudioBuffer 1 (length bs / 2) 24000 [samples]))
                       true true playing]
                    [mkRequest ((if en then "Repeat clearly:" else "") +:+ " " +:+ text)
                               (if en then "Charon" else "Kore")]
                    (Some 0%nat) (Some 0%nat) true None)
                 [SpeakTask text en (SpeakSettled (Returned tt))])
    /\ run voice_unavailable (mounted (ProcessEnv (Some key)) err)
         [CallPlayTTS text en (Returned running); InitReturned 0;
          GenerateSettled 0 (Returned (Some (Base64.rfc4648_encode bs)));
          DecodeReturned 0 no_faults; SourceEnded 0]
       = Some (mkSystem
                 (mkWorld (ProcessEnv (Some key)) [mkAudioContext 24000 running]
                    [mkSource 0 (Some (PCM.mkAudioBuffer 1 (length bs / 2) 24000 [samples]))
                       true true ended]
                    [mkRequest ((if en then "Repeat clearly:" else "") +:+ " " +:+ text)
                               (if en then "Charon" else "Kore")]
                    (Some 0%nat) (Some 0%nat) false None)
                 [SpeakTask text en (SpeakSettled (Returned tt))]).
Proof.
  intros Hne Hnu Hbytes Hnil [m Hm].
  assert (Hpos : (0 < m)%nat) by (destruct bs; [done|cbn in Hm; lia]).
  assert (Hdiv : (length bs / 2)%nat = m)
    by (rewrite Hm, Nat.mul_comm, Nat.div_mul; lia).
  rewrite Hdiv.
  pose proof (decodeAudioData_mono bs 24000 m Hm Hpos ltac:(lia)) as Hdecode.
  eexists. split; [exact Hdecode|].
  destruct (rfc4648_encode_cons bs Hnil) as (c & rest & Henc).
  assert (Hb64 : Base64.decodeBase64 (c :: rest) = Returned bs).
  { rewrite <- Henc, decodeBase64_atob. by rewrite atob_rfc4648_encode. }
  set (request := mkRequest ((if en then "Repeat clearly:" else "") +:+ " " +:+ text)
                            (if en then "Charon" else "Kore")).
  set (σ2 := mkSystem
               (mkWorld (ProcessEnv (Some key)) [mkAudioContext 24000 running] []
                  [request] (Some 0%nat) None true err)
               [SpeakTask text en (AwaitGenerate 0)]).
  assert (H2 : run voice_unavailable (mounted (ProcessEnv (Some key)) err)
                 [CallPlayTTS text en (Returned running); InitReturned 0] = Some σ2).
  { cbn [run step mounted world tasks].
    unfold playTTS_begin. cbn.
    unfold playTTS_after_init, guarded, request_body. cbn.
    unfold mbind, M_bind. cbn.
    rewrite !bool_decide_false by done. cbn. reflexivity. }
  assert (H4 : run voice_unavailable σ2
                 [GenerateSettled 0 (Returned (Some (Base64.rfc4648_encode bs)));
                  DecodeReturned 0 no_faults]
               = Some (mkSystem
                         (mkWorld (ProcessEnv (Some key)) [mkAudioContext 24000 running]
                            [mkSource 0
                               (Some (PCM.mkAudioBuffer 1 m 24000
                                        [(fun i => PCM.scaled (PCM.Int16Array_view bs m) i)
                                         <$> seq 0 m]))
                               true true playing]
                            [request] (Some 0%nat) (Some 0%nat) true None)
                         [SpeakTask text en (SpeakSettled (Returned tt))])).
  { cbn [run step σ2 world tasks lookup list_lookup].
    rewrite Henc, (playTTS_after_generate_payload 0 c rest bs) by done.
    cbn [mbind option_bind resume_task fst snd tasks world insert list_insert
         lookup list_lookup step].
    rewrite Hdecode.
    change (<[0%nat := ?x]> (tasks σ2) !! 0%nat) with (Some x). cbv iota beta.
    rewrite playTTS_after_decode_plays. reflexivity. }
  split.
  - change [CallPlayTTS text en (Returned running); InitReturned 0;
            GenerateSettled 0 (Returned (Some (Base64.rfc4648_encode bs)));
            DecodeReturned 0 no_faults]
      with ([CallPlayTTS text en (Returned running); InitReturned 0]
            ++ [GenerateSettled 0 (Returned (Some (Base64.rfc4648_encode bs)));
                DecodeReturned 0 no_faults]).
    by rewrite (run_app _ _ _ _ H2).
  - change [CallPlayTTS text en (Returned running); InitReturned 0;
            GenerateSettled 0 (Returned (Some (Base64.rfc4648_encode bs)));
            DecodeReturned 0 no_faults; SourceEnded 0]
      with ([CallPlayTTS text en (Returned running); InitReturned 0]
            ++ [GenerateSettled 0 (Returned (Some (Base64.rfc4648_encode bs)));
                DecodeReturned 0 no_faults] ++ [SourceEnded 0]).
    rewrite (run_app _ _ _ _ H2), (run_app _ _ _ _ H4). reflexivity.
Qed.

(** X9.  A payload that yields fewer than two bytes - in particular one
    that [atob] rejects - creates no source: [decodeAudioData] is rejected
    for lack of a frame, the catch block runs, and the call settles
    normally with the loading indicator off and the voice-unavailable
    message set. *)
Theorem playTTS_unplayable_payload (ctx : nat) (f : faults) (w : World)
    (payload bytes : list Z) :
  payload <> [] -> Base64.decodeBase64 payload = Returned bytes ->
  (length bytes < 2)%nat ->
  playTTS_after_generate voice_unavailable ctx (Returned (Some payload)) w
  = (w, AwaitDecode ctx (Thrown NotSupportedError))
  /\ playTTS_after_decode voice_unavailable ctx (Thrown NotSupportedError) f w
     = (setApiError (Some voice_unavailable) (setIsLoadingAudio false w),
        SpeakSettled (Returned tt)).
Proof.
  intros Hne Hdec Hlen. split; [|done].
  destruct payload as [|c rest]; [done|].
  rewrite (playTTS_after_generate_payload ctx c rest bytes) by done.
  destruct bytes as [|b [|b' bytes]]; [reflexivity..|cbn in Hlen; lia].
Qed.

End SpeakEndToEnd.

Lemma playTTS_plays_payload_witness :
  exists σ,
    Controller.run Controller.message_App
      (Controller.mounted (Credential.ProcessEnv (Some "0123456789abcdef"%string)) None)
      [Controller.CallPlayTTS "Hello" true (Returned Controller.running);
       Controller.InitReturned 0;
       Controller.GenerateSettled 0 (Returned (Some (Base64.rfc4648_encode [0; 128; 255; 127])));
       Controller.DecodeReturned 0 Controller.no_faults] = Some σ
    /\ Controller.active_sources (Controller.world σ) = [0%nat].
Proof.
  destruct (playTTS_plays_payload Controller.message_App "Hello" true
              "0123456789abcdef" None [0; 128; 255; 127])
    as (samples & _ & Hrun & _); try done.
  - repeat constructor; unfold Base64.is_byte; lia.
  - exists 2%nat. reflexivity.
  - eexists. split; [exact Hrun|]. reflexivity.
Defined.

Lemma playTTS_unplayable_payload_witness :
  let w := Controller.mkWorld Credential.NoProcess [] [] [] (Some 0%nat) None true None in
  Controller.playTTS_after_generate Controller.message_later 0
    (Returned (Some (units "YQ=="))) w
  = (w, Controller.AwaitDecode 0 (Thrown NotSupportedError)).
Proof.
  intros w.
  apply (playTTS_unplayable_payload Controller.message_later 0 Controller.no_faults w
           (units "YQ==") [97]); [done | reflexivity | cbn; lia].
Defined.

(** ** One stream at a time, when calls do not overlap *)

Section OneStream.
Import Controller Sequential.
Variable voice_unavailable : string.

Lemma is_playing_sources w w' s :
  sources w' = sources w -> is_playing w' s = is_playing w s.
Proof. unfold is_playing. by intros ->. Qed.

Lemma initAudio_begin_playback ctor w w' p :
  initAudio_begin ctor w = (w', p) -> keeps_playback w w'.
Proof.
  unfold initAudio_begin. intros H.
  destruct (audioContextRef w); [|destruct ctor]; cbn in H;
    repeat case_match; simplify_eq; done.
Qed.

Lemma initAudio_resumed_playback c r w w' p :
  initAudio_resumed c r w = (w', p) -> keeps_playback w w'.
Proof.
  unfold initAudio_resumed. intros H. repeat case_match; simplify_eq; done.
Qed.

Lemma playTTS_after_init_playback text en r w w' p :
  playTTS_after_init voice_unavailable text en r w = (w', p) -> keeps_playback w w'.
Proof. unfold_M. intros H. repeat case_match; cbn in *; simplify_eq; done. Qed.

Lemma playTTS_after_generate_playback ctx r w w' p :
  playTTS_after_generate voice_unavailable ctx r w = (w', p) -> keeps_playback w w'.
Proof. unfold_M. intros H. repeat case_match; cbn in *; simplify_eq; done. Qed.

(** [stopCurrentAudio] silences a controller in which only the tracked
    source plays. *)
Lemma stopCurrentAudio_silences w w1 :
  stopCurrentAudio w = Returned w1 ->
  (forall s, is_playing w s = true -> currentSourceRef w = Some s) ->
  (forall s, is_playing w1 s = false) /\ currentSourceRef w1 = None.
Proof.
  unfold stopCurrentAudio, source_stop. intros Hstop Honly.
  assert (Hquiet : forall w0 : World,
            (forall s, is_playing w0 s = true -> False) ->
            forall s, is_playing w0 s = false).
  { intros w0 H s. destruct (is_playing w0 s) eqn:E; [by destruct (H s)|done]. }
  destruct (currentSourceRef w) as [s0|] eqn:Hcur.
  - destruct (sources w !! s0) as [src|] eqn:Hsrc; cbn in Hstop.
    + destruct (src_status src) eqn:Hst; cbn in Hstop; simplify_eq; (split; [|done]).
      all: apply Hquiet; intros s Hs.
      2:{ unfold is_playing in Hs. cbn in Hs.
          destruct (decide (s = s0)) as [->|Hne].
          - rewrite list_lookup_insert_eq in Hs by (by eapply lookup_lt_Some). done.
          - rewrite list_lookup_insert_ne in Hs by done.
            assert (Hp : is_playing w s = true) by exact Hs.
            apply Honly in Hp. congruence. }
      all: assert (Hp : is_playing w s = true) by exact Hs.
      all: pose proof (Honly s Hp) as Heq; simplify_eq.
      all: unfold is_playing in Hp; rewrite Hsrc in Hp; cbn in Hp; by rewrite Hst in Hp.
    + simplify_eq. split; [|done]. apply Hquiet. intros s Hs.
      assert (Hp : is_playing w s = true) by exact Hs.
      pose proof (Honly s Hp) as Heq. simplify_eq.
      unfold is_playing in Hp. by rewrite Hsrc in Hp.
  - simplify_eq. split; [|done]. apply Hquiet. intros s Hs.
    apply Honly in Hs. congruence.
Qed.

(** The last part of [playTTS], entered in silence, leaves at most the
    source it created playing, and tracks it. *)
Lemma playTTS_after_decode_tracks ctx r f w w' p :
  playTTS_after_decode voice_unavailable ctx r f w = (w', p) ->
  (forall s, is_playing w s = false) ->
  forall s, is_playing w' s = true -> currentSourceRef w' = Some s.
Proof.
  intros H Hquiet s Hs.
  assert (Hold : forall (l : list Source) (x : Source),
            sources w' = sources w ++ [x] ->
            s = length (sources w) /\ src_status x = playing).
  { intros l x Hsrc. unfold is_playing in Hs. rewrite Hsrc in Hs.
    destruct (decide (s < length (sources w))%nat) as [Hlt|Hge].
    - rewrite lookup_app_l in Hs by done.
      specialize (Hquiet s). unfold is_playing in Hquiet. by rewrite Hquiet in Hs.
    - destruct (decide (s = length (sources w))) as [->|Hne].
      + rewrite lookup_app_r, Nat.sub_diag in Hs by lia. cbn in Hs.
        split; [done|]. by destruct (src_status x).
      + rewrite lookup_ge_None_2 in Hs; [done|]. rewrite length_app. cbn. lia. }
  revert H. unfold_M.
  destruct r as [buffer|e], f as [[?|] [?|] [?|]]; cbn;
    unfold set_sources, set_currentSourceRef, setApiError, setIsLoadingAudio; cbn;
    rewrite ?alter_snoc; intros H; simplify_eq.
  all: try (rewrite (is_playing_sources w) in Hs by done; by rewrite Hquiet in Hs).
  all: cbn in *; edestruct Hold as [Hidx Hst]; [exact [] | reflexivity | ];
    cbn in Hst; first [done | by rewrite Hidx].
Qed.

Lemma source_ended_playback s w w' :
  source_ended s w = Some w' ->
  currentSourceRef w' = currentSourceRef w
  /\ forall s', is_playing w' s' = true -> is_playing w s' = true.
Proof.
  unfold source_ended. intros H.
  destruct (sources w !! s) as [src|] eqn:Hsrc; cbn in H; [|done].
  assert (Hsub : forall s', is_playing
                   (set_sources (<[s := set_source_status ended src]> (sources w)) w) s'
                 = true -> is_playing w s' = true).
  { intros s'. unfold is_playing. cbn.
    destruct (decide (s' = s)) as [->|Hne].
    - rewrite list_lookup_insert_eq by (by eapply lookup_lt_Some). done.
    - by rewrite list_lookup_insert_ne. }
  repeat case_match; simplify_eq; split; try done.
Qed.

Lemma no_pending_lookup (tks : list task) t tk :
  existsb speak_pending tks = false -> tks !! t = Some tk -> speak_pending tk = false.
Proof.
  intros Hex Htk. destruct (speak_pending tk) eqn:Hp; [|done].
  assert (existsb speak_pending tks = true); [|congruence].
  apply existsb_exists. exists tk. split; [|done].
  apply list_elem_of_In, list_elem_of_lookup. eauto.
Qed.

(** Replacing a task by one that is pending only if the old one was, in a
    world with the same sources. *)
Lemma one_stream_update σ t0 tk0 tk' w' :
  one_stream σ -> tasks σ !! t0 = Some tk0 ->
  (speak_pending tk' = true -> speak_pending tk0 = true) ->
  keeps_playback (world σ) w' ->
  one_stream (mkSystem w' (<[t0 := tk']> (tasks σ))).
Proof.
  intros [Htrack Hpend] Ht0 Himp [Hsrc Hcur]. split; cbn.
  - intros s Hs. rewrite Hcur. apply Htrack. by rewrite <- (is_playing_sources _ w').
  - assert (Hold : forall t tk, <[t0 := tk']> (tasks σ) !! t = Some tk ->
                     speak_pending tk = true ->
                     exists tk1, tasks σ !! t = Some tk1 /\ speak_pending tk1 = true).
    { intros t tk Ht Hp. apply list_lookup_insert_Some in Ht as [(-> & -> & _)|[_ Ht]]; eauto. }
    intros t tk Ht Hp. destruct (Hold t tk Ht Hp) as (tk1 & Ht1 & Hp1).
    destruct (Hpend t tk1 Ht1 Hp1) as [Hquiet Huniq]. split.
    + intros s. rewrite (is_playing_sources (world σ) w') by done. apply Hquiet.
    + intros t' tk'' Ht' Hp'. destruct (Hold t' tk'' Ht' Hp') as (tk2 & Ht2 & Hp2). eauto.
Qed.

Lemma one_stream_spawn σ tk w' :
  one_stream σ -> speak_pending tk = false -> keeps_playback (world σ) w' ->
  one_stream (mkSystem w' (tasks σ ++ [tk])).
Proof.
  intros [Htrack Hpend] Hnp [Hsrc Hcur]. split; cbn.
  - intros s Hs. rewrite Hcur. apply Htrack. by rewrite <- (is_playing_sources _ w').
  - assert (Hold : forall t tk1, (tasks σ ++ [tk]) !! t = Some tk1 ->
                     speak_pending tk1 = true -> tasks σ !! t = Some tk1).
    { intros t tk1 Ht Hp. apply lookup_app_Some in Ht as [Ht|[_ Ht]]; [done|].
      destruct (t - length (tasks σ))%nat; cbn in Ht; simplify_eq. congruence. }
    intros t tk1 Ht Hp. destruct (Hpend t tk1 (Hold _ _ Ht Hp) Hp) as [Hquiet Huniq].
    split.
    + intros s. rewrite (is_playing_sources (world σ) w') by done. apply Hquiet.
    + intros t' tk2 Ht' Hp'. eauto.
Qed.

Lemma step_one_stream σ e σ' :
  admits σ e = true -> step voice_unavailable σ e = Some σ' ->
  one_stream σ -> one_stream σ'.
Proof.
  destruct σ as [w tks]. intros Hadm Hstep Hinv.
  destruct e; cbn in Hstep, Hadm.
  - destruct (initAudio_begin ctor w) as [w1 p] eqn:Hb. simplify_eq.
    apply (one_stream_spawn (mkSystem w tks)); [done|done|].
    eauto using initAudio_begin_playback.
  - apply negb_true_iff in Hadm.
    unfold playTTS_begin in Hstep.
    destruct (stopCurrentAudio_returns w) as (w0 & Hstop & _). rewrite Hstop in Hstep.
    destruct (initAudio_begin ctor w0) as [w1 p] eqn:Hb. simplify_eq.
    destruct Hinv as [Htrack _]. cbn in Htrack.
    destruct (stopCurrentAudio_silences w w0 Hstop Htrack) as [Hquiet Hcur].
    destruct (initAudio_begin_playback _ _ _ _ Hb) as [Hsrc Hcur1].
    assert (Hquiet1 : forall s, is_playing w1 s = false).
    { intros s. by rewrite (is_playing_sources w0 w1). }
    split; cbn.
    + intros s Hs. by rewrite Hquiet1 in Hs.
    + intros t tk Ht Hp. split; [done|].
      assert (Hnew : forall t1 tk1, (tks ++ [SpeakTask text isEnglish (AwaitInit p)]) !! t1
                                    = Some tk1 ->
                       speak_pending tk1 = true -> t1 = length tks).
      { intros t1 tk1 Ht1 Hp1. apply lookup_app_Some in Ht1 as [Ht1|[Hge Ht1]].
        - rewrite (no_pending_lookup tks t1 tk1) in Hp1 by done. done.
        - destruct (t1 - length tks)%nat eqn:E; cbn in Ht1; [lia|done]. }
      intros t' tk' Ht' Hp'. rewrite (Hnew _ _ Ht Hp), (Hnew _ _ Ht' Hp'). done.
  - destruct (tks !! t) as [[[c|]|text en [[c|]| | |]]|] eqn:Htk; try done.
    all: destruct (initAudio_resumed c r w) as [w1 p] eqn:Hb; simplify_eq.
    all: eapply (one_stream_update (mkSystem w tks)); [done|exact Htk|done|].
    all: eauto using initAudio_resumed_playback.
  - destruct (tks !! t) as [[|text en [[|r]| | |]]|] eqn:Htk; try done.
    destruct (playTTS_after_init _ text en r w) as [w1 p] eqn:Hb. simplify_eq.
    eapply (one_stream_update (mkSystem w tks)); [done|exact Htk|done|].
    eauto using playTTS_after_init_playback.
  - destruct (tks !! t) as [[|text en [| ctx | |]]|] eqn:Htk; try done.
    destruct (playTTS_after_generate _ ctx r w) as [w1 p] eqn:Hb. simplify_eq.
    eapply (one_stream_update (mkSystem w tks)); [done|exact Htk|done|].
    eauto using playTTS_after_generate_playback.
  - destruct (tks !! t) as [[|text en [| | ctx r |]]|] eqn:Htk; try done.
    destruct (playTTS_after_decode _ ctx r f w) as [w1 p] eqn:Hb. simplify_eq.
    destruct Hinv as [Htrack Hpend]. cbn in *.
    destruct (Hpend t _ Htk eq_refl) as [Hquiet Huniq].
    assert (Hp : p = SpeakSettled (Returned tt) \/ False).
    { revert Hb. unfold_M. intros Hb. repeat case_match; simplify_eq; by left. }
    destruct Hp as [->|[]]. split; cbn.
    + eauto using playTTS_after_decode_tracks.
    + intros t1 tk1 Ht1 Hp1.
      apply list_lookup_insert_Some in Ht1 as [(-> & <- & _)|[Hne Ht1]]; [done|].
      destruct Hne. symmetry. eauto.
  - destruct (source_ended s w) as [w1|] eqn:He; cbn in Hstep; simplify_eq.
    destruct (source_ended_playback _ _ _ He) as [Hcur Hsub].
    destruct Hinv as [Htrack Hpend]. split; cbn in *.
    + intros s' Hs'. rewrite Hcur. eauto.
    + intros t tk Ht Hp. destruct (Hpend t tk Ht Hp) as [Hquiet Huniq]. split; [|done].
      intros s'. destruct (is_playing w1 s') eqn:E; [|done].
      apply Hsub in E. by rewrite Hquiet in E.
  - destruct (context_state c w) as [[]|]; simplify_eq. exact Hinv.
Qed.

Lemma run_sequential_one_stream trace σ σ' :
  run_sequential voice_unavailable σ trace = Some σ' -> one_stream σ -> one_stream σ'.
Proof.
  revert σ. induction trace as [|e trace IH]; intros σ Hrun Hinv; cbn in Hrun.
  - by simplify_eq.
  - destruct (admits σ e) eqn:Hadm; [|done].
    destruct (step voice_unavailable σ e) as [σ1|] eqn:Hstep; [|done]. cbn in Hrun.
    eauto using step_one_stream.
Qed.

(** X10.  As long as no call of [playTTS] is made while another has not
    settled, whatever the service and the platform do, at most one source
    is playing, the playing source is the tracked one, and nothing plays
    while a call is pending. *)
Theorem sequential_calls_one_stream (environ : Credential.environment)
    (err : option string) (trace : list event) (σ : system) :
  run_sequential voice_unavailable (mounted environ err) trace = Some σ ->
  (length (active_sources (world σ)) <= 1)%nat
  /\ (forall s, s ∈ active_sources (world σ) -> currentSourceRef (world σ) = Some s)
  /\ (forall t tk, tasks σ !! t = Some tk -> speak_pending tk = true ->
        active_sources (world σ) = []).
Proof.
  intros Hrun.
  assert (Hinv : one_stream σ).
  { eapply run_sequential_one_stream; [done|]. split; cbn; [done|].
    intros t tk Ht. by rewrite lookup_nil in Ht. }
  destruct Hinv as [Htrack Hpend].
  assert (Hin : forall s, s ∈ active_sources (world σ) -> is_playing (world σ) s = true).
  { intros s Hs. unfold active_sources in Hs. by apply list_elem_of_filter in Hs as [? _]. }
  assert (Hnd : NoDup (active_sources (world σ))).
  { apply NoDup_filter, NoDup_seq. }
  split; [|split].
  - destruct (active_sources (world σ)) as [|a [|b l]] eqn:E; cbn; try lia.
    assert (Ha : currentSourceRef (world σ) = Some a).
    { apply Htrack, Hin. rewrite ?E. apply list_elem_of_here. }
    assert (Hb : currentSourceRef (world σ) = Some b).
    { apply Htrack, Hin. rewrite ?E. apply list_elem_of_further, list_elem_of_here. }
    assert (a = b) by congruence. subst.
    apply NoDup_cons in Hnd as [Hnot _]. destruct Hnot. apply list_elem_of_here.
  - intros s Hs. by apply Htrack, Hin.
  - intros t tk Ht Hp. destruct (Hpend t tk Ht Hp) as [Hquiet _].
    destruct (active_sources (world σ)) as [|a l] eqn:E; [done|].
    assert (Ha : is_playing (world σ) a = true) by (apply Hin; rewrite ?E; apply list_elem_of_here).
    by rewrite Hquiet in Ha.
Qed.

End OneStream.

Lemma sequential_calls_one_stream_witness :
  exists σ,
    Sequential.run_sequential Controller.message_App
      (Controller.mounted (Credential.ProcessEnv (Some "0123456789abcdef"%string)) None)
      [Controller.CallPlayTTS "A" true (Returned Controller.running);
       Controller.InitReturned 0;
       Controller.GenerateSettled 0 (Returned (Some (units "AAA=")));
       Controller.DecodeReturned 0 Controller.no_faults;
       Controller.CallPlayTTS "B" true (Returned Controller.running);
       Controller.InitReturned 1;
       Controller.GenerateSettled 1 (Returned (Some (units "AAA=")));
       Controller.DecodeReturned 1 Controller.no_faults] = Some σ
    /\ (length (Controller.active_sources (Controller.world σ)) <= 1)%nat.
Proof.
  set (environ := Credential.ProcessEnv (Some "0123456789abcdef"%string)).
  set (trace := [Controller.CallPlayTTS "A" true (Returned Controller.running);
                 Controller.InitReturned 0;
                 Controller.GenerateSettled 0 (Returned (Some (units "AAA=")));
                 Controller.DecodeReturned 0 Controller.no_faults;
                 Controller.CallPlayTTS "B" true (Returned Controller.running);
                 Controller.InitReturned 1;
                 Controller.GenerateSettled 1 (Returned (Some (units "AAA=")));
                 Controller.DecodeReturned 1 Controller.no_faults]).
  assert (Hrun : exists σ, Sequential.run_sequential Controller.message_App
                             (Controller.mounted environ None) trace = Some σ)
    by (eexists; vm_compute; reflexivity).
  destruct Hrun as [σ Hrun]. exists σ. split; [exact Hrun|].
  exact (proj1 (sequential_calls_one_stream Controller.message_App environ None trace σ Hrun)).
Defined.

(** ** Starting the game *)

Section StartProperties.
Import Credential Controller Start.
Variable key_missing : string.

Lemma checkApiKey_true_key environ :
  checkApiKey environ = Returned true ->
  exists k, environ = ProcessEnv (Some k) /\ k <> ""%string /\ k <> "undefined"%string
            /\ (10 <= String.length k)%nat.
Proof.
  destruct environ as [|[k|]]; [done| |done].
  rewrite checkApiKey_string. intros H. simplify_eq.
  apply negb_true_iff, Z.ltb_ge in H.
  exists k. split; [done|]. repeat split; [intros ->; cbn in H; lia..|lia].
Qed.

Lemma request_body_sends text en ctx w k :
  env w = ProcessEnv (Some k) -> k <> ""%string -> k <> "undefined"%string ->
  request_body text en ctx w
  = (add_request (mkRequest ((if en then "Repeat clearly:" else "") +:+ " " +:+ text)
                            (if en then "Charon" else "Kore")) w,
     Returned (AwaitGenerate ctx)).
Proof.
  intros Henv Hne Hnu. unfold request_body, mbind, M_bind. rewrite Henv. cbn.
  by rewrite !bool_decide_false.
Qed.

(** X11.  [startGame] rejects exactly when [initAudio] did, changing
    nothing.  Otherwise it settles normally: with a credential that
    [checkApiKey] accepts the game is started and nothing else changes,
    and from then on the key check of [playTTS] always passes, so a
    request is sent; with any other credential the game is not started and
    the missing-key message is set. *)
Theorem startGame_gates_on_key (r : outcome nat) (app : App) :
  match r with
  | Thrown e => startGame_after_init key_missing r app = (app, Thrown e)
  | Returned _ =>
      exists app',
        startGame_after_init key_missing r app = (app', Returned tt)
        /\ ((checkApiKey (env (audio app)) = Returned true
             /\ game app' = Game.started (game app) /\ audio app' = audio app
             /\ forall text en ctx,
                  request_body text en ctx (audio app')
                  = (add_request
                       (mkRequest ((if en then "Repeat clearly:" else "") +:+ " " +:+ text)
                                  (if en then "Charon" else "Kore")) (audio app'),
                     Returned (AwaitGenerate ctx)))
            \/ (checkApiKey (env (audio app)) = Returned false
                /\ game app' = game app
                /\ audio app' = setApiError (Some key_missing) (audio app)))
  end.
Proof.
  destruct r as [c|e]; [|done].
  unfold startGame_after_init.
  assert (Hret : forall environ, exists b, checkApiKey environ = Returned b).
  { intros [|[k|]]; [by eexists | rewrite checkApiKey_string; by eexists | by eexists]. }
  destruct (checkApiKey (env (audio app))) as [[]|e] eqn:Hkey; cbn.
  - eexists. split; [done|]. left. split; [done|]. split; [done|]. split; [done|].
    destruct (checkApiKey_true_key _ Hkey) as (k & Henv & Hne & Hnu & _).
    intros text en ctx. by apply (request_body_sends text en ctx _ k).
  - eexists. split; [done|]. right. done.
  - destruct (Hret (env (audio app))) as (b & Hb). congruence.
Qed.

End StartProperties.

(** ** Stopping twice *)

Section StopTwice.
Import Controller.

(** X12.  [stopCurrentAudio] is idempotent and touches nothing but the
    tracked source and the reference to it: contexts, requests, the
    loading indicator and the error message are as before (the loading
    indicator is only turned off later, by the ended event), every other
    source is unchanged, and no source starts playing. *)
Theorem stopCurrentAudio_idempotent (w : World) :
  exists w1,
    stopCurrentAudio w = Returned w1
    /\ stopCurrentAudio w1 = Returned w1
    /\ env w1 = env w /\ contexts w1 = contexts w /\ requests w1 = requests w
    /\ audioContextRef w1 = audioContextRef w
    /\ isLoadingAudio w1 = isLoadingAudio w /\ apiError w1 = apiError w
    /\ length (sources w1) = length (sources w)
    /\ (forall s, currentSourceRef w <> Some s -> sources w1 !! s = sources w !! s)
    /\ (forall s, is_playing w1 s = true ->
          is_playing w s = true /\ currentSourceRef w <> Some s).
Proof.
  assert (Hold : forall s0 s, currentSourceRef w = Some s0 ->
            (forall src, sources w !! s0 = Some src -> src_status src <> playing) ->
            is_playing w s = true -> is_playing w s = true /\ Some s0 <> Some s).
  { intros s0 s Hcur Hsrc Hs. split; [done|]. intros ?; simplify_eq.
    unfold is_playing in Hs. destruct (sources w !! s) as [src|] eqn:Hl; [|done].
    specialize (Hsrc src eq_refl). cbn in Hs. by destruct (src_status src). }
  unfold stopCurrentAudio, source_stop.
  destruct (currentSourceRef w) as [s0|] eqn:Hcur.
  2:{ exists w. rewrite Hcur. repeat split; done. }
  specialize (Hold s0).
  destruct (sources w !! s0) as [src|] eqn:Hsrc; cbn.
  - destruct (src_status src) eqn:Hst; cbn.
    2:{ eexists. split; [done|]. cbn.
        do 7 (split; [done|]). split; [by rewrite length_insert|]. split.
        - intros s Hne. rewrite list_lookup_insert_ne; [done|congruence].
        - intros s Hs. unfold is_playing in Hs. cbn in Hs.
          destruct (decide (s = s0)) as [->|Hne].
          + rewrite list_lookup_insert_eq in Hs by (by eapply lookup_lt_Some). done.
          + rewrite list_lookup_insert_ne in Hs by done. split; [done|congruence]. }
    all: eexists; split; [done|]; cbn; do 9 (split; [done|]).
    all: intros s Hs; apply Hold; [done| |done].
    all: intros src' ?; simplify_eq; by rewrite Hst.
  - eexists. split; [done|]. cbn. do 9 (split; [done|]).
    intros s Hs. apply Hold; [done| |done]. intros src' ?; simplify_eq.
Qed.

End StopTwice.

(** ** The hero image *)

Section LabProperties.
Import Lab.

Lemma list_find_first (P : Part -> Prop) `{forall p, Decision (P p)}
    (pre : list Part) (p : Part) (post : list Part) :
  Forall (fun q => ~ P q) pre -> P p ->
  list_find P (pre ++ p :: post) = Some (length pre, p).
Proof.
  intros Hpre Hp. apply list_find_Some. split; [|split; [done|]].
  - by rewrite lookup_app_r, Nat.sub_diag by lia.
  - intros j q Hq Hj. rewrite lookup_app_l in Hq by done.
    by apply (proj1 (Forall_lookup _ _) Hpre j q).
Qed.

(** X13.  Whatever the image request does, the "creating" flag is off
    once it has settled and the prompt is untouched.  When the first
    candidate's parts are [pre ++ part :: post], where no part of [pre] has
    inline data and [part] has, the image URL becomes the PNG data URL of
    [part]'s data; when the request is rejected, or the first candidate
    has content without parts, or no part has inline data, the previous
    image stays. *)
Theorem image_settled_first_inline_part (st : LabState) :
  (forall r, isCreatingImage (image_settled r st) = false
             /\ creationPrompt (image_settled r st) = creationPrompt st)
  /\ (forall pre blob post others,
        Forall (fun q => inlineData q = None) pre ->
        createdImageUrl
          (image_settled
             (Returned (mkResponse
                          (Some (mkCandidate
                                   (Some (mkContent
                                            (Some (pre ++ mkPart (Some blob) :: post))))
                                 :: others)))) st)
        = Some ("data:image/png;base64," +:+ interpolate blob))
  /\ (forall e, createdImageUrl (image_settled (Thrown e) st) = createdImageUrl st)
  /\ (forall others,
        createdImageUrl
          (image_settled
             (Returned (mkResponse (Some (mkCandidate (Some (mkContent None)) :: others))))
             st)
        = createdImageUrl st)
  /\ (forall ps others,
        Forall (fun q => inlineData q = None) ps ->
        createdImageUrl
          (image_settled
             (Returned (mkResponse (Some (mkCandidate (Some (mkContent (Some ps))) :: others))))
             st)
        = createdImageUrl st).
Proof.
  split; [|split; [|split; [|split]]].
  - intros r. unfold image_settled, image_then.
    destruct r as [res|e]; cbn; [|done].
    destruct (find_image res) as [img|e]; cbn; [|done].
    destruct (img ≫= inlineData); done.
  - intros pre blob post others Hpre.
    unfold image_settled, image_then, find_image. cbn.
    rewrite (list_find_first (fun p => is_Some (inlineData p)) pre (mkPart (Some blob)) post).
    + done.
    + eapply Forall_impl; [done|]. intros q Hq [x Hx]. congruence.
    + by eexists.
  - done.
  - done.
  - intros ps others Hps. unfold image_settled, image_then, find_image. cbn.
    destruct (list_find _ ps) as [[i p]|] eqn:Hfind; [|done].
    apply list_find_Some in Hfind as (Hp & [x Hx] & _).
    apply (proj1 (Forall_lookup _ _) Hps) in Hp. congruence.
Qed.

End LabProperties.

Lemma image_settled_first_inline_part_witness :
  let st := Lab.mkLabState "a robot" None true in
  Lab.createdImageUrl
    (Lab.image_settled
       (Returned (Lab.mkResponse
                    (Some [Lab.mkCandidate
                             (Some (Lab.mkContent
                                      (Some ([Lab.mkPart None]
                                             ++ Lab.mkPart (Some (Some "iVBOR"%string)) :: []))))])))
       st)
  = Some "data:image/png;base64,iVBOR"%string.
Proof.
  intros st.
  destruct (image_settled_first_inline_part st) as (_ & Hfirst & _).
  apply (Hfirst [Lab.mkPart None] (Some "iVBOR"%string) [] []).
  repeat constructor.
Defined.

(** ** The options shown *)

Section OptionsProperties.
Import Game Options.

(** X14.  Whatever [Math.random] returns, the options shown for a
    question are a permutation of its options, so they contain the correct
    answer exactly when the question's options do; without a current
    question no option is shown. *)
Theorem shuffledOptions_permutes (random : nat -> Q) (cq : option Question) :
  Shuffle.unit_interval random ->
  exists shown,
    shuffledOptions random cq = Some shown
    /\ match cq with
       | None => shown = []
       | Some q =>
           shown ≡ₚ q_options q
           /\ (q_correctAnswer q ∈ shown <-> q_correctAnswer q ∈ q_options q)
       end.
Proof.
  intros Hr. unfold shuffledOptions. destruct cq as [q|]; [|by eexists].
  destruct (q_options q) as [|o opts].
  - exists []. done.
  - destruct (fisher_yates_Permutation random 0 (length (o :: opts) - 1) (o :: opts))
      as (shown & Hrun & Hperm & _); [done|cbn; lia|].
    exists shown. split; [done|]. split; [done|]. by rewrite Hperm.
Qed.

End OptionsProperties.

Lemma shuffledOptions_permutes_witness :
  exists shown,
    Options.shuffledOptions (fun _ => Qmake 1 2)
      (Some (Game.mkQuestion 1 "I ________ a boy." ["am"; "is"; "are"] "am" "" ""))
    = Some shown
    /\ shown ≡ₚ ["am"; "is"; "are"].
Proof.
  destruct (shuffledOptions_permutes (fun _ => Qmake 1 2)
              (Some (Game.mkQuestion 1 "I ________ a boy." ["am"; "is"; "are"] "am" "" "")))
    as (shown & Hrun & Hperm & _).
  - intros k. split; [by unfold Qle | by unfold Qlt].
  - exists shown. split; [exact Hrun|exact Hperm].
Defined.

(** ** The story *)

Section StoryProperties.
Import Story.

Lemma STORY_units : STORY = [83; 84; 79; 82; 89; 58; 32].
Proof. reflexivity. Qed.

Lemma TRANSLATION_colon_units :
  TRANSLATION_colon = [84; 82; 65; 78; 83; 76; 65; 84; 73; 79; 78; 58].
Proof. reflexivity. Qed.

Lemma TRANSLATION_space_units :
  TRANSLATION_space = [84; 82; 65; 78; 83; 76; 65; 84; 73; 79; 78; 58; 32].
Proof. reflexivity. Qed.

Lemma ci_prefix_lookup (pat s : list Z) (i : nat) (p : Z) :
  ci_prefix pat s = true -> pat !! i = Some p ->
  exists c, s !! i = Some c /\ ci_eq p c = true.
Proof.
  revert s i. induction pat as [|p0 pat IH]; intros s i Hpre Hp; [done|].
  destruct s as [|c s]; [done|]. cbn in Hpre.
  apply andb_true_iff in Hpre as [Hc Hpre].
  destruct i as [|i]; cbn in *.
  - simplify_eq. eauto.
  - eauto.
Qed.

Lemma ci_eq_colon (c : Z) : ci_eq 58 c = true -> c = 58.
Proof. unfold ci_eq. cbn. rewrite orb_false_r. lia. Qed.

(** A match of a pattern whose [i]-th character is the colon puts a
    colon [i] places after its start. *)
Lemma ci_prefix_colon (pat s : list Z) (i j : nat) :
  pat !! i = Some 58 -> ci_prefix pat (drop j s) = true -> s !! (j + i)%nat = Some 58.
Proof.
  intros Hp Hpre. destruct (ci_prefix_lookup _ _ _ _ Hpre Hp) as (c & Hc & Heq).
  apply ci_eq_colon in Heq. subst c. by rewrite lookup_drop in Hc.
Qed.

Lemma find_ci_first (pat s : list Z) (k : nat) :
  (forall j, (j < k)%nat -> ci_prefix pat (drop j s) = false) ->
  ci_prefix pat (drop k s) = true -> (k <= length s)%nat ->
  find_ci pat s = Some k.
Proof.
  revert k. induction s as [|c s IH]; intros k Hbefore Hat Hk.
  - cbn in Hk. assert (k = 0%nat) as -> by lia. cbn in *. by rewrite Hat.
  - destruct k as [|k].
    + cbn in *. by rewrite Hat.
    + pose proof (Hbefore 0%nat ltac:(lia)) as H0. rewrite drop_0 in H0.
      cbn [find_ci]. rewrite H0.
      rewrite (IH k); [done| |done|cbn in Hk; lia].
      intros j Hj. apply (Hbefore (S j)). lia.
Qed.

Lemma match_story_first (s : list Z) (k m : nat) :
  (forall j, (j < k)%nat -> ci_prefix STORY (drop j s) = false) ->
  ci_prefix STORY (drop k s) = true ->
  find_ci TRANSLATION_colon (drop 7 (drop k s)) = Some m ->
  match_story s = Some (take m (drop 7 (drop k s))).
Proof.
  revert k. induction s as [|c s IH]; intros k Hbefore Hat Hfind.
  - by rewrite drop_nil in Hat.
  - destruct k as [|k].
    + rewrite drop_0 in *. cbn [match_story]. by rewrite Hat, Hfind.
    + pose proof (Hbefore 0%nat ltac:(lia)) as H0. rewrite drop_0 in H0.
      cbn [match_story]. rewrite H0.
      apply (IH k); [|done|done].
      intros j Hj. apply (Hbefore (S j)). lia.
Qed.

Lemma match_story_no_colon (s : list Z) : 58 ∉ s -> match_story s = None.
Proof.
  induction s as [|c s IH]; intros Hs; [done|].
  cbn [match_story].
  destruct (ci_prefix STORY (c :: s)) eqn:Hat.
  - exfalso. apply Hs.
    apply (ci_prefix_colon STORY (c :: s) 5 0) in Hat; [|done].
    by eapply list_elem_of_lookup_2.
  - apply IH. intros Hin. apply Hs. by apply list_elem_of_further.
Qed.

(** X15.  A reply [pre STORY: en TRANSLATION: es], with no colon in the
    preamble [pre] or in the English part [en], is stored as the pair of
    [en] and [es], each trimmed, provided both are non-empty after
    trimming; otherwise, and for a reply without any colon or a rejected
    request, the previous story stays.  In every case the "generating"
    flag is off afterwards and the three words are untouched. *)
Theorem story_settled_parses (st : StoryState) :
  (forall pre en es,
      58 ∉ pre -> 58 ∉ en ->
      story_settled
        (Returned (Some (pre ++ STORY ++ en ++ TRANSLATION_space ++ es))) st
      = mkStoryState (storyWords st)
          (match trim en, trim es with
           | _ :: _, _ :: _ => Some (trim en, trim es)
           | _, _ => generatedStory st
           end)
          false)
  /\ (forall text,
        58 ∉ text ->
        story_settled (Returned (Some text)) st
        = mkStoryState (storyWords st) (generatedStory st) false)
  /\ (forall e,
        story_settled (Thrown e) st
        = mkStoryState (storyWords st) (generatedStory st) false)
  /\ story_settled (Returned None) st
     = mkStoryState (storyWords st) (generatedStory st) false.
Proof.
  split; [|split; [|split]]; [| |done|done].
  2:{ intros text Htext. unfold story_settled, story_then. cbn [default from_option id].
      by rewrite match_story_no_colon. }
  intros pre en es Hpre Hen.
  set (text := pre ++ STORY ++ en ++ TRANSLATION_space ++ es).
  assert (Hno_pre : forall i, pre !! i = Some 58 -> False).
  { intros i Hi. apply Hpre. by eapply list_elem_of_lookup_2. }
  assert (Hno_en : forall i, en !! i = Some 58 -> False).
  { intros i Hi. apply Hen. by eapply list_elem_of_lookup_2. }
  assert (Hdrop : drop (length pre) text = STORY ++ en ++ TRANSLATION_space ++ es).
  { unfold text. by rewrite drop_app_length. }
  assert (Hstory : match_story text = Some en).
  { rewrite (match_story_first text (length pre) (length en)).
    - rewrite Hdrop, STORY_units. cbn [drop app]; rewrite ?drop_0. by rewrite take_app_length.
    - intros j Hj. destruct (ci_prefix STORY (drop j text)) eqn:Hat; [exfalso|done].
      apply (ci_prefix_colon STORY text 5 j) in Hat; [|done].
      unfold text in Hat. apply lookup_app_Some in Hat as [Hat|[Hle Hat]]; [by eauto|].
      rewrite STORY_units in Hat. cbn [app] in Hat.
      remember (j + 5 - length pre)%nat as d eqn:Hd.
      destruct d as [|[|[|[|[|d]]]]]; cbn in Hat; try by simplify_eq.
      lia.
    - by rewrite Hdrop, STORY_units.
    - rewrite Hdrop, STORY_units. cbn [drop app]; rewrite ?drop_0.
      apply find_ci_first.
      + intros j Hj.
        destruct (ci_prefix TRANSLATION_colon (drop j (en ++ TRANSLATION_space ++ es)))
          eqn:Hat; [exfalso|done].
        apply (ci_prefix_colon TRANSLATION_colon _ 11 j) in Hat; [|done].
        apply lookup_app_Some in Hat as [Hat|[Hle Hat]]; [by eauto|].
        rewrite TRANSLATION_space_units in Hat. cbn [app] in Hat.
        remember (j + 11 - length en)%nat as d eqn:Hd.
        destruct d as [|[|[|[|[|[|[|[|[|[|[|d]]]]]]]]]]]; cbn in Hat; try by simplify_eq.
        lia.
      + by rewrite drop_app_length, TRANSLATION_space_units.
      + rewrite length_app. lia. }
  assert (Htrans : match_translation text = Some es).
  { unfold match_translation.
    rewrite (find_ci_first TRANSLATION_space text (length pre + 7 + length en)).
    - cbn. f_equal. unfold text.
      rewrite <- Nat.add_assoc, <- Nat.add_assoc, <- drop_drop, drop_app_length.
      rewrite <- drop_drop, STORY_units. cbn [drop app]; rewrite ?drop_0.
      rewrite <- drop_drop, drop_app_length. by rewrite TRANSLATION_space_units.
    - intros j Hj.
      destruct (ci_prefix TRANSLATION_space (drop j text)) eqn:Hat; [exfalso|done].
      pose proof (ci_prefix_colon TRANSLATION_space text 11 j eq_refl Hat) as Hcolon.
      unfold text in Hcolon.
      apply lookup_app_Some in Hcolon as [Hc|[Hle Hc]]; [by eauto|].
      apply lookup_app_Some in Hc as [Hc|[Hle2 Hc]].
      + (* the colon of "STORY: ": the character before it is not an N *)
        rewrite STORY_units in Hc.
        remember (j + 11 - length pre)%nat as d eqn:Hd.
        destruct d as [|[|[|[|[|[|[|d]]]]]]]; cbn in Hc; try by simplify_eq.
        destruct (ci_prefix_lookup _ _ 10 78 Hat eq_refl) as (c & Hc' & Heq).
        rewrite lookup_drop in Hc'. unfold text in Hc'.
        rewrite lookup_app_r in Hc' by lia.
        replace (j + 10 - length pre)%nat with 4%nat in Hc' by lia.
        rewrite STORY_units in Hc'. cbn in Hc'. by simplify_eq.
      + change (length STORY) with 7%nat in *.
        apply lookup_app_Some in Hc as [Hc|[Hle3 Hc]]; [by eauto|].
        rewrite TRANSLATION_space_units in Hc. cbn [app] in Hc.
        remember (j + 11 - length pre - 7 - length en)%nat as d eqn:Hd.
        destruct d as [|[|[|[|[|[|[|[|[|[|[|d]]]]]]]]]]]; cbn in Hc; try by simplify_eq.
        lia.
    - unfold text.
      rewrite <- Nat.add_assoc, <- drop_drop, drop_app_length.
      rewrite <- drop_drop, STORY_units. cbn [drop app]; rewrite ?drop_0.
      by rewrite drop_app_length, TRANSLATION_space_units.
    - unfold text. rewrite !length_app, STORY_units. cbn [length]. lia. }
  clearbody text. unfold story_settled, story_then. cbn [default from_option id].
  rewrite Hstory, Htrans. cbn [fmap option_fmap option_map].
  destruct (trim en), (trim es); done.
Qed.

End StoryProperties.

Lemma story_settled_parses_witness :
  let st := Story.mkStoryState [units "cat"; units "moon"; units "cake"] None true in
  Story.story_settled
    (Returned (Some (units "Sure! " ++ Story.STORY ++ units "A cat ate cake.
" ++ Story.TRANSLATION_space ++ units "Un gato comio pastel. ")))
    st
  = Story.mkStoryState [units "cat"; units "moon"; units "cake"]
      (Some (units "A cat ate cake.", units "Un gato comio pastel.")) false.
Proof.
  intros st.
  destruct (story_settled_parses st) as (Hparse & _).
  rewrite Hparse.
  - reflexivity.
  - vm_compute. intros H. repeat (apply elem_of_cons in H as [H|H]; [discriminate H|]).
    by apply elem_of_nil in H.
  - vm_compute. intros H. repeat (apply elem_of_cons in H as [H|H]; [discriminate H|]).
    by apply elem_of_nil in H.
Defined.
